(** * revamb: the translation orchestrator (codegenerator.cpp)

    A shallow embedding of [CodeGenerator::translate], of its two static
    helpers [replaceFunction] and [replaceFunctionWithRet], and of
    [CodeGenerator::serialize], together with the properties of the
    helper-stubbing policy, of the per-pseudo-op dispatch, of the metadata
    tagging walk and of serialization.

    The LLVM objects the code manipulates are modelled by the part of their
    state the code reads or writes.  Pointers to functions of the helpers
    module are keys of a finite map; pointers to basic blocks of the function
    under translation are keys of a store of blocks, because the same block
    is reachable from the builder, from the [Blocks] vector and from the
    collaborators at once.  The collaborators whose code lives in other
    files (the instruction translator, the jump target manager, the variable
    manager, the debug helper) are an interface the development is
    parametric in.  [assert] is modelled as compiled in. *)

From Stdlib Require Import ZArith Ascii String List Bool Lia.
From stdpp Require Import base option list gmap strings fin_maps.

Local Open Scope string_scope.
Local Open Scope Z_scope.

(* ===================================================================== *)
(** * Definitions                                                         *)
(* ===================================================================== *)

(** ** Outcome of code that may hit an [assert]

    [Undefined] marks a run that leaves the behaviour the language defines
    (a read past the end of an array). *)

Inductive Outcome (A : Type) : Type :=
| Done (a : A)
| AssertionFailed (expr : string)
| Undefined (what : string).
Arguments Done {A} a.
Arguments AssertionFailed {A} expr.
Arguments Undefined {A} what.

#[global] Instance Outcome_ret : MRet Outcome := fun _ a => Done a.
#[global] Instance Outcome_bind : MBind Outcome := fun _ _ f m =>
  match m with
  | Done a => f a
  | AssertionFailed e => AssertionFailed e
  | Undefined w => Undefined w
  end.

(** [assert(cond)]: continues when the condition holds, aborts the run
    otherwise.  [expr] is the text the failed assertion prints. *)
Definition assert (cond : bool) (expr : string) : Outcome unit :=
  if cond then Done tt else AssertionFailed expr.

(** A string literal used as a condition decays to a [const char *] that is
    never null, so it converts to [true] whatever its text. *)
Definition literal_as_condition (text : string) : bool := true.

(** The run was aborted by a failed assertion. *)
Definition aborted {A} (o : Outcome A) : bool :=
  match o with AssertionFailed _ => true | _ => false end.

(** A range-based [for] over a fixed array whose body may abort. *)
Fixpoint forEach {A S : Type} (body : A -> S -> Outcome S)
    (names : list A) (s : S) : Outcome S :=
  match names with
  | [] => Done s
  | a :: rest => s' ← body a s; forEach body rest s'
  end.

(** ** The fragment of LLVM IR the orchestrator touches *)

Module IR.

Definition BlockId := N.

(** A metadata node: [node_id] is its identity (two distinct nodes never
    share it), [node_operand] the text of its [MDString] operand. *)
Record MDNode := mkMDNode { node_id : N; node_operand : string }.

Inductive Linkage :=
| ExternalLinkage
| InternalLinkage
| CommonLinkage
| OtherLinkage (n : N).

(** Types, as far as [replaceFunctionWithRet] tells them apart.  An
    [IntegerType] has at least one bit. *)
Inductive LLVMType :=
| VoidTy
| IntegerTy (BitWidth : positive)
| OtherTy (n : N).

Definition isVoidTy (T : LLVMType) : bool :=
  match T with VoidTy => true | _ => false end.
Definition isIntegerTy (T : LLVMType) : bool :=
  match T with IntegerTy _ => true | _ => false end.

Inductive Value :=
| ConstantInt (BitWidth : positive) (V : Z)
| OpaqueValue (n : N).

(** [APInt(numBits, val, false)] of a [uint64_t]: the 64-bit argument,
    zero extended or truncated to [numBits] bits. *)
Definition APInt (numBits : positive) (val : Z) : Z :=
  (val mod 2 ^ 64) mod 2 ^ Z.pos numBits.

(** [ConstantInt::get(Ty, V, false)]. *)
Definition ConstantInt_get (Ty : positive) (V : Z) : Value :=
  ConstantInt Ty (APInt Ty V).

Inductive Opcode :=
| Ret (RetVal : option Value)
| Br (Dest : BlockId)
| Call (Callee : string) (Args : list Value)
| Unreachable
| OtherInst (n : N).

(** An instruction with its attached metadata, keyed by metadata kind
    (the kind name stands for the identifier [getMDKindID] interns it to). *)
Record Instruction := mkInstruction {
  opcode : Opcode;
  metadata : gmap string MDNode
}.

(** A freshly created instruction carries no metadata. *)
Definition newInst (op : Opcode) : Instruction :=
  {| opcode := op; metadata := ∅ |}.

Definition hasMetadata (Inst : Instruction) : bool :=
  negb (bool_decide (metadata Inst = ∅)).

(** [setMetadata(Kind, Node)]; a null node erases the attachment. *)
Definition setMetadata (Kind : string) (Node : option MDNode)
    (Inst : Instruction) : Instruction :=
  {| opcode := opcode Inst;
     metadata := match Node with
                 | Some n => <[Kind := n]> (metadata Inst)
                 | None => delete Kind (metadata Inst)
                 end |}.

Record BasicBlock := mkBasicBlock {
  bb_name : string;
  bb_insts : list Instruction
}.

Record LLVMFunction := mkFunction {
  linkage : Linkage;
  ReturnType : LLVMType;
  BasicBlocks : list BasicBlock
}.

Definition setLinkage (L : Linkage) (F : LLVMFunction) : LLVMFunction :=
  {| linkage := L; ReturnType := ReturnType F; BasicBlocks := BasicBlocks F |}.

(** [Function::dropAllReferences] releases every operand and erases every
    block of the function. *)
Definition dropAllReferences (F : LLVMFunction) : LLVMFunction :=
  {| linkage := linkage F; ReturnType := ReturnType F; BasicBlocks := [] |}.

(** [BasicBlock::Create(Context, Name, Parent)] appends an empty block to
    [Parent]; the block is designated by its position in the function. *)
Definition BasicBlock_Create (Name : string) (Parent : LLVMFunction)
    : nat * LLVMFunction :=
  (length (BasicBlocks Parent),
   {| linkage := linkage Parent; ReturnType := ReturnType Parent;
      BasicBlocks := BasicBlocks Parent ++ [mkBasicBlock Name []] |}).

(** [XInst::Create(..., InsertAtEnd)]: a new instruction at the end of
    block [BB] of [F]. *)
Definition appendInst (op : Opcode) (BB : nat) (F : LLVMFunction)
    : LLVMFunction :=
  {| linkage := linkage F; ReturnType := ReturnType F;
     BasicBlocks :=
       alter (fun B => mkBasicBlock (bb_name B) (bb_insts B ++ [newInst op]))
             BB (BasicBlocks F) |}.

(** A module, as the map from names to the functions it holds. *)
Abbreviation LLVMModule := (gmap string LLVMFunction).

Definition getFunction (M : LLVMModule) (Name : string)
    : option LLVMFunction := M !! Name.

(** Writing back through the pointer [getFunction] returned. *)
Definition storeFunction (Name : string) (F : option LLVMFunction)
    (M : LLVMModule) : LLVMModule :=
  match F with
  | Some F' => <[Name := F']> M
  | None => M
  end.

End IR.
Import IR.

(** ** Helper stubbing *)

Module Stub.

(** [replaceFunction]: internal linkage, body dropped, one new empty block
    which is returned. *)
Definition replaceFunction (ToReplace : LLVMFunction) : nat * LLVMFunction :=
  let F := setLinkage InternalLinkage ToReplace in
  let F := dropAllReferences F in
  BasicBlock_Create "" F.

(** [replaceFunctionWithRet].  [uninit] is whatever the uninitialised local
    [ResultValue] holds when neither of the first two branches assigns it. *)
Definition replaceFunctionWithRet (uninit : option Value)
    (ToReplace : option LLVMFunction) (Result : Z)
    : Outcome (option LLVMFunction) :=
  match ToReplace with
  | None => Done None
  | Some F0 =>
    let '(Body, F) := replaceFunction F0 in
    ResultValue ←
      match ReturnType F with
      | VoidTy =>
        _ ← assert (Result =? 0) "Result == 0"; Done None
      | IntegerTy ReturnType =>
        Done (Some (ConstantInt_get ReturnType Result))
      | OtherTy _ =>
        _ ← assert (literal_as_condition
                      "No-op functions can only return void or an integer type")
                   "No-op functions can only return void or an integer type";
        Done uninit
      end;
    Done (Some (appendInst (Ret ResultValue) Body F))
  end.

Definition NoOpFunctionNames : list string :=
  [ "qemu_log_mask"; "fprintf"; "cpu_dump_state"; "mmap_lock"; "mmap_unlock";
    "pthread_cond_broadcast"; "pthread_mutex_unlock"; "pthread_mutex_lock";
    "pthread_cond_wait"; "pthread_cond_signal"; "cpu_exit"; "start_exclusive";
    "process_pending_signals"; "end_exclusive" ].

Definition AbortFunctionNames : list string :=
  [ "cpu_restore_state"; "gdb_handlesig"; "queue_signal"; "cpu_mips_exec";
    "print_syscall"; "print_syscall_ret"; "EmulateAll"; "cpu_abort";
    "do_arm_semihosting" ].

(** The two stubs in closed form: what a function looks like once it went
    through [replaceFunctionWithRet], and once it went through the body of
    the loop over [AbortFunctionNames]. *)
Definition resultValue (uninit : option Value) (Result : Z) (T : LLVMType)
    : option Value :=
  match T with
  | VoidTy => None
  | IntegerTy w => Some (ConstantInt_get w Result)
  | OtherTy _ => uninit
  end.

Definition neutralized (uninit : option Value) (Result : Z) (F : LLVMFunction)
    : LLVMFunction :=
  mkFunction InternalLinkage (ReturnType F)
    [mkBasicBlock "" [newInst (Ret (resultValue uninit Result (ReturnType F)))]].

Definition trapped (F : LLVMFunction) : LLVMFunction :=
  mkFunction InternalLinkage (ReturnType F)
    [mkBasicBlock "" [newInst (Call "abort" []); newInst Unreachable]].

(** One call [replaceFunctionWithRet(HelpersModule->getFunction(Name), Result)]. *)
Definition stubWithRet (uninit : string -> option Value) (Result : Z)
    (Name : string) (HelpersModule : LLVMModule) : Outcome LLVMModule :=
  F ← replaceFunctionWithRet (uninit Name) (getFunction HelpersModule Name) Result;
  Done (storeFunction Name F HelpersModule).

(** The body of the loop over [AbortFunctionNames]. *)
Definition stubWithAbort (Name : string) (HelpersModule : LLVMModule)
    : Outcome LLVMModule :=
  match getFunction HelpersModule Name with
  | Some TheFunction =>
    _ ← assert (bool_decide (getFunction HelpersModule "abort" ≠ None))
               "HelpersModule->getFunction(abort) != nullptr";
    let '(NewBody, F) := replaceFunction TheFunction in
    let F := appendInst (Call "abort" []) NewBody F in
    let F := appendInst Unreachable NewBody F in
    Done (<[Name := F]> HelpersModule)
  | None => Done HelpersModule
  end.

(** The stubbing part of [CodeGenerator::translate]: the two loops over
    the name tables, then the two functions with a fixed result. *)
Definition stubHelpers (uninit : string -> option Value)
    (HelpersModule : LLVMModule) : Outcome LLVMModule :=
  M ← forEach (stubWithRet uninit 0) NoOpFunctionNames HelpersModule;
  M ← forEach stubWithAbort AbortFunctionNames M;
  M ← stubWithRet uninit 1 "page_check_range" M;
  stubWithRet uninit 0xffffffff "page_get_flags" M.

(** What [stubHelpers] makes of the function called [Name], in closed form. *)
Definition stubOf (uninit : string -> option Value) (Name : string)
    (F : LLVMFunction) : LLVMFunction :=
  if decide (Name ∈ NoOpFunctionNames) then neutralized (uninit Name) 0 F
  else if decide (Name ∈ AbortFunctionNames) then trapped F
  else if decide (Name = "page_check_range") then neutralized (uninit Name) 1 F
  else if decide (Name = "page_get_flags") then neutralized (uninit Name) 0xffffffff F
  else F.

End Stub.

(** ** Decoded pseudo-operations *)

Module PTC.

Inductive PTCOpcode :=
| PTC_INSTRUCTION_op_discard
| PTC_INSTRUCTION_op_debug_insn_start
| PTC_INSTRUCTION_op_call
| PTC_INSTRUCTION_op_other (n : N).

Record PTCInstruction := mkPTCInstruction {
  opc : PTCOpcode;
  args : list Z
}.

(** A [PTCInstructionList]: [instructions[0 .. instruction_count)]. *)
Abbreviation PTCInstructionList := (list PTCInstruction).

End PTC.
Import PTC.

(** ** The state [CodeGenerator::translate] shares with its collaborators *)

Module Gen.

Definition OriginalInstrMDKind : string := "oi".
Definition PTCInstrMDKind : string := "pi".
Definition DbgMDKind : string := "dbg".

Definition newline : string := String "010"%char EmptyString.

(** [size_t] and [uint64_t] arithmetic. *)
Definition wrap64 (z : Z) : Z := z mod 2 ^ 64.

(** The function under translation and everything that points into it.
    [blocks] is the store of its basic blocks (a block that holds no
    instruction yet need not be bound); [InsertBB] and [InsertPt] are the
    insertion point of [Builder] ([None] is the end of the block, [Some k]
    is before the instruction at position [k]); [Blocks] and
    [LabeledBasicBlocks] are the two containers handed to the instruction
    translator by reference; [nextNode] is the identity the context gives
    to the next metadata node it creates; [private] is the state the
    collaborators keep to themselves. *)
Record Env (X : Type) := mkEnv {
  blocks : gmap BlockId (list Instruction);
  InsertBB : BlockId;
  InsertPt : option nat;
  Blocks : list BlockId;
  LabeledBasicBlocks : gmap string BlockId;
  nextNode : N;
  private : X
}.
Arguments mkEnv {X}.
Arguments blocks {X}.
Arguments InsertBB {X}.
Arguments InsertPt {X}.
Arguments Blocks {X}.
Arguments LabeledBasicBlocks {X}.
Arguments nextNode {X}.
Arguments private {X}.

Section Builder.
Context {X : Type}.

Definition instsOf (e : Env X) (BB : BlockId) : list Instruction :=
  default [] (blocks e !! BB).

Definition withBlocks (st : gmap BlockId (list Instruction)) (e : Env X) : Env X :=
  mkEnv st (InsertBB e) (InsertPt e) (Blocks e) (LabeledBasicBlocks e)
        (nextNode e) (private e).

Definition withBlocksVector (v : list BlockId) (e : Env X) : Env X :=
  mkEnv (blocks e) (InsertBB e) (InsertPt e) v (LabeledBasicBlocks e)
        (nextNode e) (private e).

(** [LabeledBasicBlocks.clear()]. *)
Definition clearLabeledBasicBlocks (e : Env X) : Env X :=
  mkEnv (blocks e) (InsertBB e) (InsertPt e) (Blocks e) ∅
        (nextNode e) (private e).

(** [Builder.SetInsertPoint(BB)]: the end of [BB]. *)
Definition SetInsertPoint (BB : BlockId) (e : Env X) : Env X :=
  mkEnv (blocks e) BB None (Blocks e) (LabeledBasicBlocks e)
        (nextNode e) (private e).

Definition GetInsertBlock (e : Env X) : BlockId := InsertBB e.

(** [Builder.Insert]: the new instruction goes before the insertion point,
    which keeps designating the instruction it designated.  The builder of
    [translate] is never given a debug location, so the instruction starts
    without metadata. *)
Definition Insert (op : Opcode) (e : Env X) : Env X :=
  let old := instsOf e (InsertBB e) in
  match InsertPt e with
  | None =>
    withBlocks (<[InsertBB e := (old ++ [newInst op])%list]> (blocks e)) e
  | Some k =>
    mkEnv (<[InsertBB e := (take k old ++ newInst op :: drop k old)%list]> (blocks e))
          (InsertBB e) (Some (S k)) (Blocks e) (LabeledBasicBlocks e)
          (nextNode e) (private e)
  end.

Definition CreateBr (Dest : BlockId) (e : Env X) : Env X := Insert (Br Dest) e.

(** [MDNode::getDistinct(Context, MDString::get(Context, Str))]: a node no
    other node is identical to. *)
Definition MDNode_getDistinct (Str : string) (e : Env X) : MDNode * Env X :=
  (mkMDNode (nextNode e) Str,
   mkEnv (blocks e) (InsertBB e) (InsertPt e) (Blocks e) (LabeledBasicBlocks e)
         (N.succ (nextNode e)) (private e)).

End Builder.

(** ** The metadata tagging walk *)

(** What the body of the [while] does to one instruction. *)
Definition stamp (MDOriginalInstr : option MDNode) (MDPTCInstr : MDNode)
    (Inst : Instruction) : Instruction :=
  setMetadata PTCInstrMDKind (Some MDPTCInstr)
    (setMetadata OriginalInstrMDKind MDOriginalInstr Inst).

(** The [while] loop, on the instructions of the block listed from the last
    one to the first one: [Inst] starts at [end()], steps back while it is not
    at [begin()] and the instruction it reaches has no metadata. *)
Fixpoint tagBackward (MDOriginalInstr : option MDNode) (MDPTCInstr : MDNode)
    (fromEnd : list Instruction) : list Instruction :=
  match fromEnd with
  | [] => []
  | Inst :: before =>
    if hasMetadata Inst then Inst :: before
    else stamp MDOriginalInstr MDPTCInstr Inst
           :: tagBackward MDOriginalInstr MDPTCInstr before
  end.

Definition tagBlock (MDOriginalInstr : option MDNode) (MDPTCInstr : MDNode)
    (insts : list Instruction) : list Instruction :=
  rev (tagBackward MDOriginalInstr MDPTCInstr (rev insts)).

(** [for (BasicBlock *Block : Blocks)]: the walk over every block of the
    vector, in order, repetitions included. *)
Fixpoint tagBlocks (MDOriginalInstr : option MDNode) (MDPTCInstr : MDNode)
    (Blocks : list BlockId) (st : gmap BlockId (list Instruction))
    : gmap BlockId (list Instruction) :=
  match Blocks with
  | [] => st
  | Block :: rest =>
    tagBlocks MDOriginalInstr MDPTCInstr rest
      (alter (tagBlock MDOriginalInstr MDPTCInstr) Block st)
  end.

Definition setMetadataForNewInstructions {X} (MDOriginalInstr : option MDNode)
    (MDPTCInstr : MDNode) (e : Env X) : Env X :=
  withBlocks (tagBlocks MDOriginalInstr MDPTCInstr (Blocks e) (blocks e)) e.

End Gen.
Import Gen.

(** ** The per-batch part of [CodeGenerator::translate] *)

Module Translate.

(** The collaborators of the orchestrator, as the state transformers
    their member functions are on the shared state:
    [Translator.newInstruction], [Translator.translateCall],
    [Translator.translate], [Translator.closeLastInstruction],
    [JumpTargets.getBlockAt], [Variables.newFunction] and the text
    [dumpInstruction] prints for the pseudo-op at an index. *)
Class Collaborators (X : Type) := {
  newInstruction : PTCInstruction -> bool -> Env X -> (bool * option MDNode) * Env X;
  translateCall : PTCInstruction -> Env X -> Env X;
  translate : PTCInstruction -> Env X -> Env X;
  closeLastInstruction : Z -> Env X -> Env X;
  getBlockAt : Z -> Env X -> BlockId * Env X;
  Variables_newFunction : PTCInstructionList -> Env X -> Env X;
  dumpInstruction : PTCInstructionList -> nat -> string
}.

(** What the orchestrator itself did, in order: the handler it called for
    the pseudo-op at index [j], the branch it emitted with its own builder,
    and the metadata pair it ran the tagging walk with. *)
Inductive Action :=
| CalledNewInstruction (j : nat) (IsFirst : bool)
| CalledTranslateCall (j : nat)
| CalledTranslate (j : nat)
| EmittedBr (j : nat) (From : BlockId) (NextPC : Z) (Dest : BlockId)
| Tagged (j : nat) (MDOriginalInstr : option MDNode) (MDPTCInstr : MDNode).

(** The local variables that survive one turn of the [for] loop. *)
Record LoopState (X : Type) := mkLoopState {
  StopTranslation : bool;
  MDOriginalInstr : option MDNode;
  env : Env X
}.
Arguments mkLoopState {X}.
Arguments StopTranslation {X}.
Arguments MDOriginalInstr {X}.
Arguments env {X}.

Section Batch.
Context {X : Type} {C : Collaborators X}.

(** The [switch] on the opcode of the pseudo-op at index [j]; next to the
    new state, what the orchestrator did.  Inside the loop
    [j < instruction_count], so [instruction_count - 1] does not wrap. *)
Definition dispatch (NextPC : Z) (instruction_count j : nat)
    (Instruction : PTCInstruction) (s : LoopState X)
    : LoopState X * list Action :=
  match opc Instruction with
  | PTC_INSTRUCTION_op_discard => (s, [])
  | PTC_INSTRUCTION_op_debug_insn_start =>
    let '((Stop, MD), e) := newInstruction Instruction false (env s) in
    (mkLoopState Stop MD e, [CalledNewInstruction j false])
  | PTC_INSTRUCTION_op_call =>
    let e := translateCall Instruction (env s) in
    if (j =? instruction_count - 1)%nat then
      let '(Dest, e) := getBlockAt NextPC e in
      (mkLoopState (StopTranslation s) (MDOriginalInstr s) (CreateBr Dest e),
       [CalledTranslateCall j; EmittedBr j (GetInsertBlock e) NextPC Dest])
    else
      (mkLoopState (StopTranslation s) (MDOriginalInstr s) e,
       [CalledTranslateCall j])
  | PTC_INSTRUCTION_op_other _ =>
    (mkLoopState (StopTranslation s) (MDOriginalInstr s)
       (translate Instruction (env s)),
     [CalledTranslate j])
  end.

(** One turn of the [for] loop: reset [Blocks] to the insertion block,
    dispatch, create the node of the pseudo-op, run the tagging walk. *)
Definition loopBody (InstructionList : PTCInstructionList) (NextPC : Z)
    (j : nat) (Instruction : PTCInstruction) (s : LoopState X)
    : LoopState X * list Action :=
  let e := withBlocksVector [GetInsertBlock (env s)] (env s) in
  let '(s, acts) :=
    dispatch NextPC (length InstructionList) j Instruction
      (mkLoopState (StopTranslation s) (MDOriginalInstr s) e) in
  let PTCString := dumpInstruction InstructionList j ++ newline in
  let '(MDPTCInstr, e) := MDNode_getDistinct PTCString (env s) in
  (mkLoopState (StopTranslation s) (MDOriginalInstr s)
     (setMetadataForNewInstructions (MDOriginalInstr s) MDPTCInstr e),
   (acts ++ [Tagged j (MDOriginalInstr s) MDPTCInstr])%list).

(** The dispatch one turn of the loop runs, and the node it creates for
    the pseudo-op, on their own. *)
Definition dispatched (InstructionList : PTCInstructionList) (NextPC : Z)
    (j : nat) (Instruction : PTCInstruction) (s : LoopState X)
    : LoopState X * list Action :=
  dispatch NextPC (length InstructionList) j Instruction
    (mkLoopState (StopTranslation s) (MDOriginalInstr s)
       (withBlocksVector [GetInsertBlock (env s)] (env s))).

Definition nodeOf (InstructionList : PTCInstructionList) (NextPC : Z)
    (j : nat) (Instruction : PTCInstruction) (s : LoopState X) : MDNode :=
  fst (MDNode_getDistinct (dumpInstruction InstructionList j ++ newline)
         (env (fst (dispatched InstructionList NextPC j Instruction s)))).

(** [for (; j < instruction_count && !StopTranslation; j++)], with [rest]
    the pseudo-ops from index [j] on. *)
Fixpoint instructionLoop (InstructionList : PTCInstructionList) (NextPC : Z)
    (j : nat) (rest : list PTCInstruction) (s : LoopState X)
    : LoopState X * list Action :=
  match rest with
  | [] => (s, [])
  | Instruction :: rest' =>
    if StopTranslation s then (s, [])
    else
      let '(s, acts) := loopBody InstructionList NextPC j Instruction s in
      let '(s, acts') := instructionLoop InstructionList NextPC (S j) rest' s in
      (s, (acts ++ acts')%list)
  end.

(** One turn of the [while (Entry != nullptr)] loop, from
    [Builder.SetInsertPoint(Entry)] to [Translator.closeLastInstruction],
    given what [ptc.translate] returned for [VirtualAddress]: the number of
    bytes it consumed and the list it filled. *)
Definition translateBatch (CodePointer CodeEnd : Z) (Entry : BlockId)
    (VirtualAddress ConsumedSize : Z) (InstructionList : PTCInstructionList)
    (e : Env X) : Outcome (LoopState X * list Action) :=
  let e := SetInsertPoint Entry e in
  let e := clearLabeledBasicBlocks e in
  _ ← assert (CodePointer <? CodeEnd) "CodeEnd > CodePointer";
  let NextPC := wrap64 (wrap64 VirtualAddress + wrap64 ConsumedSize) in
  let e := Variables_newFunction InstructionList e in
  match InstructionList with
  | [] => Undefined "InstructionList->instructions[0]"
  | Instruction :: rest =>
    let '((Stop, MD), e) := newInstruction Instruction true e in
    let '(s, acts) :=
      instructionLoop InstructionList NextPC 1 rest (mkLoopState Stop MD e) in
    Done (mkLoopState (StopTranslation s) (MDOriginalInstr s)
            (closeLastInstruction NextPC (env s)),
          CalledNewInstruction 0 true :: acts)
  end.

End Batch.

(** No instruction-start marker at the indices from [j1 + 1] to [j2]. *)
Definition noMarkerBetween (InstructionList : PTCInstructionList)
    (j1 j2 : nat) : Prop :=
  forall k Inst, (j1 < k <= j2)%nat -> InstructionList !! k = Some Inst ->
    opc Inst <> PTC_INSTRUCTION_op_debug_insn_start.

(** All the tagging walks run between two consecutive markers of a batch
    use one and the same metadata pair. *)
Definition samePairBetweenMarkers (InstructionList : PTCInstructionList)
    (log : list Action) : Prop :=
  forall j1 oi1 pi1 j2 oi2 pi2,
    In (Tagged j1 oi1 pi1) log -> In (Tagged j2 oi2 pi2) log ->
    (j1 <= j2)%nat -> noMarkerBetween InstructionList j1 j2 ->
    oi1 = oi2 /\ pi1 = pi2.

End Translate.

(** ** [CodeGenerator::serialize] *)

Module Serialize.

(** The files, and the paths no stream can be opened on for writing. *)
Record FileSystem := mkFileSystem {
  files : gmap string string;
  unwritable : gset string
}.

(** A [std::ofstream] after its constructor ran. *)
Record ofstream := mkOfstream {
  os_path : string;
  is_open : bool
}.

(** [std::ofstream Output(Path)]: on success the file is created or
    truncated; on failure the stream is left in a failed state, and nothing
    is thrown (the exception mask of a new stream is empty). *)
Definition ofstream_open (Path : string) (fs : FileSystem) : ofstream * FileSystem :=
  if bool_decide (Path ∈ unwritable fs) then (mkOfstream Path false, fs)
  else (mkOfstream Path true,
        mkFileSystem (<[Path := ""]> (files fs)) (unwritable fs)).

(** Output on a stream: appended to the file, dropped by a failed stream. *)
Definition ofstream_write (Output : ofstream) (text : string) (fs : FileSystem)
    : FileSystem :=
  if is_open Output then
    mkFileSystem (alter (fun old => old ++ text) (os_path Output) (files fs))
                 (unwritable fs)
  else fs.

(** How a call ends for its caller. *)
Inductive Completion :=
| Returned
| Threw (what : string).

(** The debug helper: [copySource] may write files of its own and tells
    whether it holds a good copy of the IR; [print] gives the textual form
    of the module. *)
Class DebugHelper (D : Type) := {
  copySource : D -> FileSystem -> bool * D * FileSystem;
  print : D -> bool -> string
}.

Definition serialize {D} `{DebugHelper D} (OutputPath : string) (Debug : D)
    (fs : FileSystem) : Completion * D * FileSystem :=
  let '(copied, Debug, fs) := copySource Debug fs in
  if negb copied then
    let '(Output, fs) := ofstream_open OutputPath fs in
    let fs := ofstream_write Output (print Debug false) fs in
    (Returned, Debug, fs)
  else (Returned, Debug, fs).

(** A failure to open the output file is reported to the caller: the call
    does not end like a successful one. *)
Definition reportsOpenFailure {D} `{DebugHelper D} (OutputPath : string)
    (Debug : D) (fs : FileSystem) : Prop :=
  fst (fst (copySource Debug fs)) = false ->
  OutputPath ∈ unwritable (snd (copySource Debug fs)) ->
  fst (fst (serialize OutputPath Debug fs)) <> Returned.

End Serialize.

(** ** A small helpers module *)

Module Sample.

Definition someBody : list BasicBlock :=
  [ mkBasicBlock "entry" [newInst (OtherInst 7); newInst (Br 1%N)];
    mkBasicBlock "exit" [newInst (Ret None)] ].

Definition extern (T : LLVMType) : LLVMFunction :=
  mkFunction ExternalLinkage T someBody.

Definition i32 : LLVMType := IntegerTy 32.

(** A type that is neither [void] nor an integer, [double] say. *)
Definition double : LLVMType := OtherTy 0.

Definition helpers : LLVMModule :=
  list_to_map
    [ ("fprintf", extern i32); ("mmap_lock", extern VoidTy);
      ("cpu_abort", extern VoidTy); ("queue_signal", extern i32);
      ("abort", mkFunction ExternalLinkage VoidTy []);
      ("page_check_range", extern i32); ("page_get_flags", extern i32);
      ("helper_add", extern (IntegerTy 64)) ].

Definition helpersWithoutAbort : LLVMModule := delete "abort" helpers.

(** The same module with a [cpu_exit] that returns a [double]. *)
Definition helpersWithDouble : LLVMModule :=
  <["cpu_exit" := extern double]> helpers.

Definition nullptr : string -> option Value := fun _ => None.

(** Collaborators that emit one instruction per pseudo-op.  The boundary
    handler creates the node of the original instruction and asks to stop
    on a pseudo-op with a negative argument. *)
Definition opcodeName (o : PTCOpcode) : string :=
  match o with
  | PTC_INSTRUCTION_op_discard => "discard"
  | PTC_INSTRUCTION_op_debug_insn_start => "debug_insn_start"
  | PTC_INSTRUCTION_op_call => "call"
  | PTC_INSTRUCTION_op_other 0 => "mov"
  | PTC_INSTRUCTION_op_other _ => "add"
  end.

#[export] Instance collaborators : Translate.Collaborators unit := {|
  Translate.newInstruction Inst IsFirst e :=
    let '(MD, e) := MDNode_getDistinct "original instruction" e in
    ((negb (forallb (Z.leb 0) (args Inst)), Some MD), e);
  Translate.translateCall Inst e := Insert (Call "helper" []) e;
  Translate.translate Inst e :=
    Insert (OtherInst (match opc Inst with
                       | PTC_INSTRUCTION_op_other n => n
                       | _ => 0%N
                       end)) e;
  Translate.closeLastInstruction NextPC e := e;
  Translate.getBlockAt PC e := (Z.to_N PC, e);
  Translate.Variables_newFunction InstructionList e := e;
  Translate.dumpInstruction InstructionList j :=
    match InstructionList !! j with
    | Some Inst => opcodeName (opc Inst)
    | None => ""
    end
|}.

(** A debug helper that holds no copy of the IR, and a file system with a
    directory nothing can be created in. *)
#[export] Instance debugHelper : Serialize.DebugHelper unit := {|
  Serialize.copySource Debug fs := (false, Debug, fs);
  Serialize.print Debug DebugInfo := "define void @root() { ret void }"
|}.

Definition readOnlyDisk : Serialize.FileSystem :=
  Serialize.mkFileSystem ∅ {[ "/proc/out.ll" ]}.

(** An instruction that already carries a debug location. *)
Definition annotated : Instruction :=
  mkInstruction (OtherInst 0) {[ DbgMDKind := mkMDNode 9 "loc" ]}.

Definition emptyEnv : Env unit := mkEnv ∅ 0%N None [] ∅ 0%N tt.

Definition insn_start (pc : Z) : PTCInstruction :=
  mkPTCInstruction PTC_INSTRUCTION_op_debug_insn_start [pc].
Definition op (n : N) : PTCInstruction :=
  mkPTCInstruction (PTC_INSTRUCTION_op_other n) [].
Definition call : PTCInstruction :=
  mkPTCInstruction PTC_INSTRUCTION_op_call [].

(** A batch that ends on a call, a batch with a call in the middle, and a
    batch of two ordinary pseudo-ops after its marker. *)
Definition endsOnCall : PTCInstructionList := [insn_start 0x1000; op 0; call].
Definition callInside : PTCInstructionList := [insn_start 0x1000; call; op 1].
Definition twoOps : PTCInstructionList := [insn_start 0x1000; op 0; op 1].

(** Batches the boundary handler asks to stop: at the first pseudo-op, and
    at a marker inside the batch. *)
Definition stopsAtFirst : PTCInstructionList := [insn_start (-1); op 0].
Definition stopsInside : PTCInstructionList :=
  [insn_start 0x1000; op 0; insn_start (-1); op 1].

End Sample.

(** ** What the stubbing requires and what it leaves *)

Module StubShape.
Import Stub.

(** The names [stubHelpers] looks up. *)
Definition stubbedNames : list string :=
  (NoOpFunctionNames ++ AbortFunctionNames
     ++ ["page_check_range"; "page_get_flags"])%list.

(** The three assertions of the stubbing, as conditions on the module it
    is given: [abort] is there as soon as a function of the trap list is,
    and neither function with a fixed non-zero result returns [void]. *)
Definition assertionsHold (M : LLVMModule) : Prop :=
  (M !! "abort" ≠ None
   \/ forall Name, Name ∈ AbortFunctionNames -> M !! Name = None)
  /\ (forall F, M !! "page_check_range" = Some F -> ReturnType F ≠ VoidTy)
  /\ (forall F, M !! "page_get_flags" = Some F -> ReturnType F ≠ VoidTy).

(** [Instruction::isTerminator], on the opcodes of the model. *)
Definition isTerminator (op : Opcode) : bool :=
  match op with
  | Ret _ | Br _ | Unreachable => true
  | Call _ _ | OtherInst _ => false
  end.

(** A block the verifier accepts as far as its shape goes: instructions
    that do not end the block, then one terminator. *)
Definition terminatedBlock (B : BasicBlock) : Prop :=
  exists body last,
    bb_insts B = (body ++ [last])%list
    /\ isTerminator (opcode last) = true
    /\ Forall (fun Inst => isTerminator (opcode Inst) = false) body.

End StubShape.

(** ** Reading the log of a batch *)

Module TranslateShape.
Import Translate.

(** The indices the tagging walk ran for, in the order of the log. *)
Definition taggedIndices (log : list Action) : list nat :=
  omap (fun a => match a with Tagged j _ _ => Some j | _ => None end) log.

(** The index of the pseudo-op an action was taken for. *)
Definition actionIndex (a : Action) : nat :=
  match a with
  | CalledNewInstruction j _ | CalledTranslateCall j | CalledTranslate j
  | EmittedBr j _ _ _ | Tagged j _ _ => j
  end.

(** The state the first pseudo-op of a batch is handled in. *)
Definition batchStart {X} `{Collaborators X} (Entry : BlockId)
    (InstructionList : PTCInstructionList) (e : Env X) : Env X :=
  Variables_newFunction InstructionList
    (clearLabeledBasicBlocks (SetInsertPoint Entry e)).

(** The collaborators create their metadata nodes through the context, as
    the orchestrator does: none of them takes back an identity the context
    has given out. *)
Definition allocatorNeverRewinds {X} (C : Collaborators X) : Prop :=
  (forall Inst IsFirst e,
     (nextNode e <= nextNode (snd (newInstruction Inst IsFirst e)))%N)
  /\ (forall Inst e, (nextNode e <= nextNode (translateCall Inst e))%N)
  /\ (forall Inst e, (nextNode e <= nextNode (translate Inst e))%N)
  /\ (forall PC e, (nextNode e <= nextNode (snd (getBlockAt PC e)))%N).

End TranslateShape.

(** ** The loop over the jump targets *)

Module Outer.
Import Translate.

(** What the [while (Entry != nullptr)] loop needs beyond the collaborators
    of a batch: the decoder [ptc.translate], which reads the code that
    [ptc.mmap] mapped and so is a function of the virtual address; the two
    passes run on the module after each batch; and
    [JumpTargets.peekJumpTarget]. *)
Class Driver (X : Type) := {
  ptc_translate : Z -> Z * PTCInstructionList;
  runPasses : Env X -> Env X;
  peekJumpTarget : Env X -> (Z * option BlockId) * Env X
}.

Section Loop.
Context {X : Type} {C : Collaborators X} {D : Driver X}.

(** The loop, with the addresses [Code.data()] and [CodePointer] as
    integers and [Code.size()] as [CodeSize].  Each turn is one batch, the
    passes, and the next target; the result lists the batches with the
    virtual address each was decoded at.  [fuel] bounds the number of
    turns: the loop itself runs for as long as the registry hands out
    targets. *)
Fixpoint translations (fuel : nat) (LoadAddress CodeData CodeSize : Z)
    (VirtualAddress CodePointer : Z) (Entry : option BlockId) (e : Env X)
    : option (Outcome (Env X * list (Z * list Action))) :=
  match Entry with
  | None => Some (Done (e, []))
  | Some EntryBlock =>
    match fuel with
    | O => None
    | S fuel =>
      let CodeEnd := CodeData + CodeSize in
      let '(ConsumedSize, InstructionList) := ptc_translate VirtualAddress in
      match translateBatch CodePointer CodeEnd EntryBlock VirtualAddress
              ConsumedSize InstructionList e with
      | Done (s, log) =>
        let e := runPasses (env s) in
        let '((NewPC, Entry), e) := peekJumpTarget e in
        let CodePointer :=
          CodeData + wrap64 (wrap64 NewPC - wrap64 LoadAddress) in
        match translations fuel LoadAddress CodeData CodeSize
                NewPC CodePointer Entry e with
        | Some (Done (e, batches)) =>
          Some (Done (e, (VirtualAddress, log) :: batches))
        | other => other
        end
      | AssertionFailed expr => Some (AssertionFailed expr)
      | Undefined what => Some (Undefined what)
      end
    end
  end.

(** The loop as [translate] enters it: [CodePointer] is [Code.data()] and
    [Entry] is the block just created. *)
Definition translateRegion (fuel : nat) (LoadAddress CodeData CodeSize : Z)
    (VirtualAddress : Z) (Entry : BlockId) (e : Env X)
    : option (Outcome (Env X * list (Z * list Action))) :=
  translations fuel LoadAddress CodeData CodeSize VirtualAddress CodeData
    (Some Entry) e.

End Loop.

End Outer.

(** ** A small driver *)

Module SampleDriver.

(** A decoder that finds the batch [endsOnCall] at [0x1000] and [twoOps]
    elsewhere, eight bytes each, and a registry that hands out the
    fallthrough address [0x1008] once. *)
#[export] Instance driver : Outer.Driver unit := {|
  Outer.ptc_translate VirtualAddress :=
    (8, if VirtualAddress =? 0x1000 then Sample.endsOnCall else Sample.twoOps);
  Outer.runPasses e := e;
  Outer.peekJumpTarget e :=
    if (nextNode e <? 4)%N then ((0x1008, Some 0x1008%N), e)
    else ((0, None), e)
|}.

End SampleDriver.

(* ===================================================================== *)
(** * Properties                                                          *)
(* ===================================================================== *)

(** ** The outcome monad and [forEach] *)

Lemma bind_Done_inv {A B} (m : Outcome A) (f : A -> Outcome B) (b : B) :
  m ≫= f = Done b -> exists a, m = Done a /\ f a = Done b.
Proof. destruct m as [a| |]; simpl; intros H; [eauto | discriminate..]. Qed.

Lemma bind_Done {A B} (a : A) (f : A -> Outcome B) : Done a ≫= f = f a.
Proof. reflexivity. Qed.

Lemma forEach_total {A S} (body : A -> S -> Outcome S) (P : S -> Prop) names :
  (forall a s, P s -> exists s', body a s = Done s' /\ P s') ->
  forall s, P s -> exists s', forEach body names s = Done s' /\ P s'.
Proof.
  intros Hbody. induction names as [|a rest IH]; intros s Hs; simpl.
  - eauto.
  - destruct (Hbody a s Hs) as (s1 & -> & Hs1). simpl. auto.
Qed.

(** A loop whose body rewrites the function under the name it is given and
    nothing else rewrites every listed function once. *)
Definition rewritesOnly (body : string -> LLVMModule -> Outcome LLVMModule)
    (g : string -> LLVMFunction -> LLVMFunction) : Prop :=
  forall a (M M' : LLVMModule), body a M = Done M' ->
    forall k, M' !! k = if decide (k = a) then g a <$> M !! k else M !! k.

Lemma forEach_rewritesOnly body g names :
  rewritesOnly body g -> NoDup names ->
  forall (M M' : LLVMModule), forEach body names M = Done M' ->
    forall k, M' !! k = if decide (k ∈ names) then g k <$> M !! k else M !! k.
Proof.
  intros Hbody. induction names as [|a rest IH]; intros Hnd M M' Hrun k.
  - simpl in Hrun. injection Hrun as <-. rewrite decide_False; [done|].
    apply not_elem_of_nil.
  - simpl in Hrun. apply bind_Done_inv in Hrun as (M1 & H1 & Hrest).
    apply NoDup_cons in Hnd as [Hnotin Hnd].
    rewrite (IH Hnd _ _ Hrest k), (Hbody _ _ _ H1 k).
    destruct (decide (k = a)) as [->|Hne].
    + rewrite decide_False by done. rewrite decide_True by left. done.
    + destruct (decide (k ∈ rest)) as [Hin|Hout].
      * rewrite decide_True by (by right). done.
      * rewrite decide_False; [done|]. rewrite elem_of_cons. tauto.
Qed.

(** ** Helper stubbing *)

Module StubFacts.
Import Stub.

Lemma replaceFunction_eq F :
  replaceFunction F =
    (0%nat, mkFunction InternalLinkage (ReturnType F) [mkBasicBlock "" []]).
Proof. reflexivity. Qed.

Lemma replaceFunctionWithRet_Some uninit F Result :
  replaceFunctionWithRet uninit (Some F) Result =
    if isVoidTy (ReturnType F) && negb (Result =? 0)
    then AssertionFailed "Result == 0"
    else Done (Some (neutralized uninit Result F)).
Proof.
  destruct F as [L [|w|n] B]; unfold replaceFunctionWithRet, neutralized; simpl;
    [destruct (Result =? 0)|..]; reflexivity.
Qed.

Lemma NoOpFunctionNames_NoDup : NoDup NoOpFunctionNames.
Proof. apply (bool_decide_unpack _). vm_compute. exact Logic.I. Qed.

Lemma AbortFunctionNames_NoDup : NoDup AbortFunctionNames.
Proof. apply (bool_decide_unpack _). vm_compute. exact Logic.I. Qed.

Lemma stubWithRet_None uninit Result Name (M : LLVMModule) :
  M !! Name = None -> stubWithRet uninit Result Name M = Done M.
Proof. intros H. unfold stubWithRet, getFunction. rewrite H. reflexivity. Qed.

Lemma stubWithRet_Some uninit Result Name (M : LLVMModule) F :
  M !! Name = Some F ->
  stubWithRet uninit Result Name M =
    if isVoidTy (ReturnType F) && negb (Result =? 0)
    then AssertionFailed "Result == 0"
    else Done (<[Name := neutralized (uninit Name) Result F]> M).
Proof.
  intros H. unfold stubWithRet, getFunction. rewrite H.
  rewrite replaceFunctionWithRet_Some.
  destruct (isVoidTy (ReturnType F) && negb (Result =? 0)); reflexivity.
Qed.

Lemma stubWithRet_rewritesOnly uninit Result :
  rewritesOnly (stubWithRet uninit Result)
               (fun Name => neutralized (uninit Name) Result).
Proof.
  intros a M M' H k. destruct (M !! a) as [F|] eqn:Ha.
  - rewrite (stubWithRet_Some _ _ _ _ _ Ha) in H.
    destruct (isVoidTy (ReturnType F) && negb (Result =? 0)); [discriminate|].
    injection H as <-. destruct (decide (k = a)) as [->|Hne].
    + rewrite lookup_insert_eq, Ha. reflexivity.
    + rewrite lookup_insert_ne by done. reflexivity.
  - rewrite (stubWithRet_None _ _ _ _ Ha) in H. injection H as <-.
    destruct (decide (k = a)) as [->|Hne]; [by rewrite Ha | done].
Qed.

Lemma stubWithRet_zero_total uninit Name (M : LLVMModule) :
  exists M', stubWithRet uninit 0 Name M = Done M'.
Proof.
  destruct (M !! Name) as [F|] eqn:Ha.
  - rewrite (stubWithRet_Some _ _ _ _ _ Ha). rewrite andb_false_r. eauto.
  - rewrite (stubWithRet_None _ _ _ _ Ha). eauto.
Qed.

Lemma stubWithAbort_None Name (M : LLVMModule) :
  M !! Name = None -> stubWithAbort Name M = Done M.
Proof. intros H. unfold stubWithAbort, getFunction. rewrite H. reflexivity. Qed.

Lemma stubWithAbort_Some Name (M : LLVMModule) F :
  M !! Name = Some F ->
  stubWithAbort Name M =
    if bool_decide (M !! "abort" ≠ None)
    then Done (<[Name := trapped F]> M)
    else AssertionFailed "HelpersModule->getFunction(abort) != nullptr".
Proof.
  intros H. unfold stubWithAbort, getFunction. rewrite H.
  destruct (bool_decide (M !! "abort" ≠ None)); reflexivity.
Qed.

Lemma stubWithAbort_rewritesOnly :
  rewritesOnly stubWithAbort (fun _ => trapped).
Proof.
  intros a M M' H k. destruct (M !! a) as [F|] eqn:Ha.
  - rewrite (stubWithAbort_Some _ _ _ Ha) in H.
    destruct (bool_decide (M !! "abort" ≠ None)); [|discriminate].
    injection H as <-. destruct (decide (k = a)) as [->|Hne].
    + rewrite lookup_insert_eq, Ha. reflexivity.
    + rewrite lookup_insert_ne by done. reflexivity.
  - rewrite (stubWithAbort_None _ _ Ha) in H. injection H as <-.
    destruct (decide (k = a)) as [->|Hne]; [by rewrite Ha | done].
Qed.

Lemma tables_disjoint :
  Forall (fun k => (k ∉ AbortFunctionNames) /\ k ≠ "page_check_range"
                   /\ k ≠ "page_get_flags" /\ k ≠ "abort") NoOpFunctionNames
  /\ Forall (fun k => k ≠ "page_check_range" /\ k ≠ "page_get_flags"
                      /\ k ≠ "abort") AbortFunctionNames.
Proof. apply (bool_decide_unpack _). vm_compute. exact Logic.I. Qed.

Lemma NoOp_name_elsewhere k :
  k ∈ NoOpFunctionNames ->
  (k ∉ AbortFunctionNames) /\ k ≠ "page_check_range" /\ k ≠ "page_get_flags"
  /\ k ≠ "abort".
Proof.
  intros Hin. destruct tables_disjoint as [H _].
  rewrite Forall_forall in H. exact (H k Hin).
Qed.

Lemma Abort_name_elsewhere k :
  k ∈ AbortFunctionNames ->
  k ≠ "page_check_range" /\ k ≠ "page_get_flags" /\ k ≠ "abort".
Proof.
  intros Hin. destruct tables_disjoint as [_ H].
  rewrite Forall_forall in H. exact (H k Hin).
Qed.

(** The four phases of [stubHelpers], when none of them aborts. *)
Lemma stubHelpers_phases uninit (M M' : LLVMModule) :
  stubHelpers uninit M = Done M' ->
  exists M1 M2 M3 : LLVMModule,
    forEach (stubWithRet uninit 0) NoOpFunctionNames M = Done M1
    /\ forEach stubWithAbort AbortFunctionNames M1 = Done M2
    /\ stubWithRet uninit 1 "page_check_range" M2 = Done M3
    /\ stubWithRet uninit 0xffffffff "page_get_flags" M3 = Done M'.
Proof.
  unfold stubHelpers. intros H.
  apply bind_Done_inv in H as (M1 & H1 & H).
  apply bind_Done_inv in H as (M2 & H2 & H).
  apply bind_Done_inv in H as (M3 & H3 & H).
  eauto 10.
Qed.

Lemma stubHelpers_lookup uninit (M M' : LLVMModule) :
  stubHelpers uninit M = Done M' ->
  forall k, M' !! k = stubOf uninit k <$> M !! k.
Proof.
  intros H k. apply stubHelpers_phases in H as (M1 & M2 & M3 & H1 & H2 & H3 & H4).
  rewrite (stubWithRet_rewritesOnly _ _ _ _ _ H4 k).
  rewrite (stubWithRet_rewritesOnly _ _ _ _ _ H3 k).
  rewrite (forEach_rewritesOnly _ _ _ stubWithAbort_rewritesOnly
             AbortFunctionNames_NoDup _ _ H2 k).
  rewrite (forEach_rewritesOnly _ _ _ (stubWithRet_rewritesOnly uninit 0)
             NoOpFunctionNames_NoDup _ _ H1 k).
  unfold stubOf.
  destruct (decide (k ∈ NoOpFunctionNames)) as [Hn|Hn].
  - destruct (NoOp_name_elsewhere k Hn) as (Ha & Hc & Hf & _).
    rewrite !decide_False by done. reflexivity.
  - destruct (decide (k ∈ AbortFunctionNames)) as [Ha|Ha].
    + destruct (Abort_name_elsewhere k Ha) as (Hc & Hf & _).
      rewrite !decide_False by done. reflexivity.
    + destruct (decide (k = "page_check_range")) as [->|Hc].
      * rewrite decide_False by done. reflexivity.
      * destruct (decide (k = "page_get_flags")) as [->|]; [reflexivity|].
        by destruct (M !! k).
Qed.

(** The loop over [NoOpFunctionNames] never aborts: it passes [0]. *)
Lemma neutralize_loop_total uninit names (M : LLVMModule) :
  exists M', forEach (stubWithRet uninit 0) names M = Done M'.
Proof.
  destruct (forEach_total (stubWithRet uninit 0) (fun _ => True) names) with (s := M)
    as (M' & H & _); [|done|eauto].
  intros a s _. destruct (stubWithRet_zero_total uninit a s) as [s' Hs']. eauto.
Qed.

(** The loop over [AbortFunctionNames] stops at the first function it
    finds when the module has no [abort]. *)
Lemma trap_loop_aborts names (M : LLVMModule) :
  M !! "abort" = None ->
  (exists n, n ∈ names /\ is_Some (M !! n)) ->
  forEach stubWithAbort names M
    = AssertionFailed "HelpersModule->getFunction(abort) != nullptr".
Proof.
  intros Habs. induction names as [|a rest IH]; intros (n & Hin & Hn).
  - by apply not_elem_of_nil in Hin.
  - simpl. destruct (M !! a) as [F|] eqn:Ha.
    + rewrite (stubWithAbort_Some _ _ _ Ha), Habs.
      rewrite bool_decide_false by (intros Hx; by apply Hx). reflexivity.
    + rewrite (stubWithAbort_None _ _ Ha). simpl. apply IH.
      exists n. split; [|done]. apply elem_of_cons in Hin as [->|]; [|done].
      rewrite Ha in Hn. by destruct Hn.
Qed.

Lemma trap_loop_total names (M : LLVMModule) :
  M !! "abort" ≠ None ->
  exists M', forEach stubWithAbort names M = Done M'.
Proof.
  intros Hab.
  destruct (forEach_total stubWithAbort
              (fun s : LLVMModule => s !! "abort" ≠ None) names) with (s := M)
    as (M' & H & _); [|done|eauto].
  intros a s Hs. destruct (s !! a) as [F|] eqn:Ha.
  - rewrite (stubWithAbort_Some _ _ _ Ha), bool_decide_true by done.
    eexists; split; [reflexivity|].
    destruct (decide (a = "abort")) as [->|Hne].
    + by rewrite lookup_insert_eq.
    + by rewrite lookup_insert_ne.
  - rewrite (stubWithAbort_None _ _ Ha). eauto.
Qed.

Lemma stubHelpers_abort_missing uninit (M : LLVMModule) Name :
  Name ∈ AbortFunctionNames -> is_Some (M !! Name) -> M !! "abort" = None ->
  stubHelpers uninit M
    = AssertionFailed "HelpersModule->getFunction(abort) != nullptr".
Proof.
  intros Hin Hname Habs. unfold stubHelpers.
  destruct (neutralize_loop_total uninit NoOpFunctionNames M) as [M1 H1].
  rewrite H1, bind_Done.
  pose proof (forEach_rewritesOnly _ _ _ (stubWithRet_rewritesOnly uninit 0)
                NoOpFunctionNames_NoDup _ _ H1) as Hlk.
  rewrite trap_loop_aborts; [reflexivity| |].
  - rewrite Hlk. destruct (decide ("abort" ∈ NoOpFunctionNames)) as [Hx|]; [|done].
    by destruct (NoOp_name_elsewhere _ Hx) as (_ & _ & _ & ?).
  - exists Name. split; [done|]. rewrite Hlk.
    destruct Hname as [F ->]. by destruct (decide _).
Qed.

Lemma stubHelpers_total uninit (M : LLVMModule) :
  M !! "abort" ≠ None ->
  (forall F, M !! "page_check_range" = Some F -> ReturnType F ≠ VoidTy) ->
  (forall F, M !! "page_get_flags" = Some F -> ReturnType F ≠ VoidTy) ->
  exists M', stubHelpers uninit M = Done M'.
Proof.
  intros Hab Hc Hf. unfold stubHelpers.
  destruct (neutralize_loop_total uninit NoOpFunctionNames M) as [M1 H1].
  pose proof (forEach_rewritesOnly _ _ _ (stubWithRet_rewritesOnly uninit 0)
                NoOpFunctionNames_NoDup _ _ H1) as L1.
  assert (Hother1 : forall k, k ∉ NoOpFunctionNames -> M1 !! k = M !! k).
  { intros k Hk. rewrite L1, decide_False by done. reflexivity. }
  destruct (trap_loop_total AbortFunctionNames M1) as [M2 H2].
  { rewrite Hother1; [done|]. intros Hx.
    by destruct (NoOp_name_elsewhere _ Hx) as (_ & _ & _ & ?). }
  pose proof (forEach_rewritesOnly _ _ _ stubWithAbort_rewritesOnly
                AbortFunctionNames_NoDup _ _ H2) as L2.
  assert (Hother2 : forall k, k ∉ NoOpFunctionNames -> k ∉ AbortFunctionNames ->
                              M2 !! k = M !! k).
  { intros k Hk Hk'. rewrite L2, decide_False by done. by apply Hother1. }
  assert (Hnotin : forall k, k = "page_check_range" \/ k = "page_get_flags" ->
                             (k ∉ NoOpFunctionNames) /\ (k ∉ AbortFunctionNames)).
  { intros k Hk. split; intros Hx.
    - destruct (NoOp_name_elsewhere _ Hx) as (_ & ? & ? & _). tauto.
    - destruct (Abort_name_elsewhere _ Hx) as (? & ? & _). tauto. }
  rewrite H1, bind_Done, H2, bind_Done.
  assert (exists M3, stubWithRet uninit 1 "page_check_range" M2 = Done M3
                     /\ M3 !! "page_get_flags" = M !! "page_get_flags")
    as (M3 & H3 & L3).
  { destruct (Hnotin "page_check_range") as [? ?]; [by left|].
    destruct (Hnotin "page_get_flags") as [? ?]; [by right|].
    destruct (M2 !! "page_check_range") as [F|] eqn:HF.
    - rewrite (stubWithRet_Some _ _ _ _ _ HF).
      rewrite Hother2 in HF by done. apply Hc in HF.
      destruct (ReturnType F); [done|..]; simpl;
        (eexists; split; [reflexivity|]);
        rewrite lookup_insert_ne by done; by apply Hother2.
    - rewrite (stubWithRet_None _ _ _ _ HF). eexists; split; [reflexivity|].
      by apply Hother2. }
  rewrite H3, bind_Done. rewrite <- L3 in Hf.
  destruct (M3 !! "page_get_flags") as [F|] eqn:HF.
  - rewrite (stubWithRet_Some _ _ _ _ _ HF).
    specialize (Hf F eq_refl).
    destruct (ReturnType F); [done|..]; simpl; eauto.
  - rewrite (stubWithRet_None _ _ _ _ HF). eauto.
Qed.


Lemma APInt_zero w : APInt w 0 = 0.
Proof. reflexivity. Qed.

Lemma APInt_one w : APInt w 1 = 1.
Proof.
  unfold APInt. change (1 mod 2 ^ 64) with 1.
  apply Z.mod_small. split; [lia|]. apply Z.pow_gt_1; lia.
Qed.

Lemma APInt_all_flags w : APInt w 0xffffffff = 0xffffffff mod 2 ^ Z.pos w.
Proof. reflexivity. Qed.

Lemma all_flags_wide w : (32 <= w)%positive -> 0xffffffff mod 2 ^ Z.pos w = 0xffffffff.
Proof.
  intros Hw. apply Z.mod_small. split; [lia|].
  apply Z.lt_le_trans with (2 ^ 32); [reflexivity|].
  apply Z.pow_le_mono_r; lia.
Qed.

Lemma all_flags_narrow w :
  (w <= 32)%positive -> 0xffffffff mod 2 ^ Z.pos w = Z.ones (Z.pos w).
Proof.
  intros Hw. change 0xffffffff with (Z.ones 32).
  apply Z.ones_mod_pow2. lia.
Qed.

(** Scenario C of the specification: a function returning a 32-bit integer. *)
Example neutralize_i32 :
  replaceFunctionWithRet None (Some (Sample.extern Sample.i32)) 0
    = Done (Some (mkFunction InternalLinkage (IntegerTy 32)
                    [mkBasicBlock "" [newInst (Ret (Some (ConstantInt 32 0)))]])).
Proof. reflexivity. Qed.

(** Scenario D of the specification: a trap-list function is present, the
    module has no [abort]. *)
Example trap_without_abort :
  stubHelpers Sample.nullptr Sample.helpersWithoutAbort
    = AssertionFailed "HelpersModule->getFunction(abort) != nullptr".
Proof. vm_compute. reflexivity. Qed.

(** A [page_check_range] that returns [void] cannot return 1: the run
    stops on [assert(Result == 0)]. *)
Example fixed_result_of_void_function :
  stubWithRet Sample.nullptr 1 "page_check_range"
    {[ "page_check_range" := Sample.extern VoidTy ]}
    = AssertionFailed "Result == 0".
Proof. vm_compute. reflexivity. Qed.

(** C2, as the code behaves: a function whose return type is neither
    [void] nor an integer type does not make [replaceFunctionWithRet]
    abort.  The assertion of the last branch tests a string literal, which
    is never null, so the call goes on and gives the function a body that
    returns whatever the uninitialised [ResultValue] holds; a helpers module
    whose [cpu_exit] returns a [double] goes through the whole stubbing. *)
Theorem replaceFunctionWithRet_other_type_goes_on
    (uninit : option Value) (L : Linkage) (n : N) (B : list BasicBlock) (Result : Z) :
  replaceFunctionWithRet uninit (Some (mkFunction L (OtherTy n) B)) Result
    = Done (Some (mkFunction InternalLinkage (OtherTy n)
                    [mkBasicBlock "" [newInst (Ret uninit)]]))
  /\ aborted (replaceFunctionWithRet uninit
                (Some (mkFunction L (OtherTy n) B)) Result) = false
  /\ exists M' : LLVMModule,
       stubHelpers Sample.nullptr Sample.helpersWithDouble = Done M'
       /\ M' !! "cpu_exit"
            = Some (mkFunction InternalLinkage Sample.double
                      [mkBasicBlock "" [newInst (Ret None)]]).
Proof.
  split; [reflexivity|]. split; [reflexivity|].
  eexists. split; vm_compute; reflexivity.
Qed.

(** C3: a function of the module whose name is in the trap list ends, when
    the stubbing completes, with a single block holding a call to [abort]
    and then [unreachable]; when the module has no [abort] the stubbing
    aborts on its assertion and produces no module; and the stubbing does
    complete when [abort] is present and neither of the two functions with
    a fixed result returns [void]. *)
Theorem trap_list_stub_or_abort (uninit : string -> option Value)
    (M : LLVMModule) (Name : string) (TheFunction : LLVMFunction) :
  In Name AbortFunctionNames -> M !! Name = Some TheFunction ->
  (M !! "abort" = None -> aborted (stubHelpers uninit M) = true)
  /\ (forall M' : LLVMModule, stubHelpers uninit M = Done M' ->
        exists F, M' !! Name = Some F
          /\ BasicBlocks F =
               [mkBasicBlock "" [newInst (Call "abort" []); newInst Unreachable]])
  /\ (M !! "abort" ≠ None ->
      (forall F, M !! "page_check_range" = Some F -> ReturnType F ≠ VoidTy) ->
      (forall F, M !! "page_get_flags" = Some F -> ReturnType F ≠ VoidTy) ->
      exists M' : LLVMModule, stubHelpers uninit M = Done M').
Proof.
  intros Hin HF. apply list_elem_of_In in Hin. repeat split.
  - intros Habs. rewrite (stubHelpers_abort_missing uninit M Name); eauto.
  - intros M' Hrun. exists (trapped TheFunction). split; [|reflexivity].
    rewrite (stubHelpers_lookup _ _ _ Hrun), HF.
    change (Some (stubOf uninit Name TheFunction) = Some (trapped TheFunction)).
    unfold stubOf. destruct (decide (Name ∈ NoOpFunctionNames)) as [Hx|_].
    { by destruct (NoOp_name_elsewhere _ Hx) as [? _]. }
    rewrite decide_True by done. reflexivity.
  - apply stubHelpers_total.
Qed.

Lemma trap_list_stub_or_abort_witness :
  In "cpu_abort" AbortFunctionNames
  /\ Sample.helpers !! "cpu_abort" = Some (Sample.extern VoidTy)
  /\ aborted (stubHelpers Sample.nullptr Sample.helpersWithoutAbort) = true
  /\ exists M' : LLVMModule, stubHelpers Sample.nullptr Sample.helpers = Done M'.
Proof.
  split; [simpl; tauto|]. split; [reflexivity|]. split.
  - refine (proj1 (trap_list_stub_or_abort Sample.nullptr
                     Sample.helpersWithoutAbort "cpu_abort" (Sample.extern VoidTy)
                     _ _) _); [simpl; tauto|reflexivity|reflexivity].
  - refine (proj2 (proj2 (trap_list_stub_or_abort Sample.nullptr
                     Sample.helpers "cpu_abort" (Sample.extern VoidTy)
                     _ _)) _ _ _); [simpl; tauto|reflexivity|..].
    + vm_compute. discriminate.
    + intros F HF. vm_compute in HF. injection HF as <-. discriminate.
    + intros F HF. vm_compute in HF. injection HF as <-. discriminate.
Defined.

(** C6: a function of the module whose name is in the neutralize list is
    given internal linkage and, in place of its body, one block whose only
    instruction is a return: [ret void] when it returns [void], a return of
    the constant 0 of its type when it returns an integer.  This is what
    [replaceFunctionWithRet] makes of it, without aborting, and what the
    module holds under that name when the stubbing completes. *)
Theorem neutralize_list_stub (uninit : string -> option Value)
    (M : LLVMModule) (Name : string) (F0 : LLVMFunction) :
  In Name NoOpFunctionNames -> M !! Name = Some F0 ->
  exists F,
    replaceFunctionWithRet (uninit Name) (getFunction M Name) 0 = Done (Some F)
    /\ linkage F = InternalLinkage
    /\ ReturnType F = ReturnType F0
    /\ (ReturnType F0 = VoidTy ->
        BasicBlocks F = [mkBasicBlock "" [newInst (Ret None)]])
    /\ (forall w, ReturnType F0 = IntegerTy w ->
        BasicBlocks F =
          [mkBasicBlock "" [newInst (Ret (Some (ConstantInt w 0)))]])
    /\ (forall M' : LLVMModule, stubHelpers uninit M = Done M' ->
        M' !! Name = Some F).
Proof.
  intros Hin HF. apply list_elem_of_In in Hin.
  exists (neutralized (uninit Name) 0 F0). unfold getFunction. rewrite HF.
  rewrite replaceFunctionWithRet_Some, andb_false_r.
  split; [reflexivity|]. split; [reflexivity|]. split; [reflexivity|].
  split; [|split].
  - intros HT. unfold neutralized. rewrite HT. reflexivity.
  - intros w HT. unfold neutralized. rewrite HT. reflexivity.
  - intros M' Hrun. rewrite (stubHelpers_lookup _ _ _ Hrun), HF.
    change (Some (stubOf uninit Name F0) = Some (neutralized (uninit Name) 0 F0)).
    unfold stubOf. rewrite decide_True by done. reflexivity.
Qed.

Lemma neutralize_list_stub_witness :
  In "fprintf" NoOpFunctionNames
  /\ Sample.helpers !! "fprintf" = Some (Sample.extern Sample.i32)
  /\ exists F,
       replaceFunctionWithRet None (getFunction Sample.helpers "fprintf") 0
         = Done (Some F)
       /\ BasicBlocks F =
            [mkBasicBlock "" [newInst (Ret (Some (ConstantInt 32 0)))]].
Proof.
  split; [simpl; tauto|]. split; [reflexivity|].
  destruct (neutralize_list_stub Sample.nullptr Sample.helpers "fprintf"
              (Sample.extern Sample.i32)) as (F & Hrun & _ & _ & _ & Hint & _);
    [simpl; tauto|reflexivity|].
  exists F. split; [exact Hrun|]. apply Hint. reflexivity.
Defined.

(** C7: when the stubbing completes, [page_check_range], if the module
    holds it with an integer return type, is one block that returns the
    constant 1 of that type; [page_get_flags], under the same condition, is
    one block that returns [0xffffffff] reduced to the width of that type:
    [0xffffffff] itself from 32 bits on, and every bit of the type set up to
    32 bits. *)
Theorem fixed_value_stubs (uninit : string -> option Value) (M M' : LLVMModule) :
  stubHelpers uninit M = Done M' ->
  (forall F0 w, M !! "page_check_range" = Some F0 -> ReturnType F0 = IntegerTy w ->
     exists F, M' !! "page_check_range" = Some F
       /\ BasicBlocks F =
            [mkBasicBlock "" [newInst (Ret (Some (ConstantInt w 1)))]])
  /\ (forall F0 w, M !! "page_get_flags" = Some F0 -> ReturnType F0 = IntegerTy w ->
     exists F, M' !! "page_get_flags" = Some F
       /\ BasicBlocks F =
            [mkBasicBlock ""
               [newInst (Ret (Some (ConstantInt w (0xffffffff mod 2 ^ Z.pos w))))]]
       /\ ((32 <= w)%positive -> 0xffffffff mod 2 ^ Z.pos w = 0xffffffff)
       /\ ((w <= 32)%positive -> 0xffffffff mod 2 ^ Z.pos w = Z.ones (Z.pos w))).
Proof.
  intros Hrun. split; intros F0 w HF HT.
  - exists (neutralized (uninit "page_check_range") 1 F0). split.
    + rewrite (stubHelpers_lookup _ _ _ Hrun), HF. reflexivity.
    + unfold neutralized. rewrite HT. simpl. unfold ConstantInt_get.
      rewrite APInt_one. reflexivity.
  - exists (neutralized (uninit "page_get_flags") 0xffffffff F0). split; [|split].
    + rewrite (stubHelpers_lookup _ _ _ Hrun), HF. reflexivity.
    + unfold neutralized. rewrite HT. reflexivity.
    + split; [apply all_flags_wide | apply all_flags_narrow].
Qed.

Lemma fixed_value_stubs_witness :
  exists M' : LLVMModule,
    stubHelpers Sample.nullptr Sample.helpers = Done M'
    /\ (exists F, M' !! "page_check_range" = Some F
          /\ BasicBlocks F =
               [mkBasicBlock "" [newInst (Ret (Some (ConstantInt 32 1)))]])
    /\ (exists F, M' !! "page_get_flags" = Some F
          /\ BasicBlocks F =
               [mkBasicBlock "" [newInst (Ret (Some (ConstantInt 32 0xffffffff)))]]).
Proof.
  destruct (stubHelpers Sample.nullptr Sample.helpers) as [M'| |] eqn:Hrun;
    [|vm_compute in Hrun; discriminate..].
  exists M'. split; [reflexivity|].
  destruct (fixed_value_stubs Sample.nullptr Sample.helpers M' Hrun) as [Hc Hf].
  split.
  - apply (Hc (Sample.extern Sample.i32) 32%positive); reflexivity.
  - destruct (Hf (Sample.extern Sample.i32) 32%positive) as (F & ? & ? & _);
      [reflexivity..|]. exists F. split; assumption.
Defined.

(** C9: for a name the module does not hold, both stubbing operations
    return the module as it is; for any name they leave every function
    under another name as it is, and the function under that name, if any,
    with exactly one block; run again on their own result they return it
    unchanged.  Where the return type is [void] or an integer, the second
    run gives the same result whatever the uninitialised local holds. *)
Theorem stubbing_skips_missing_and_repeats (uninit : string -> option Value)
    (Result : Z) (Name : string) (M : LLVMModule) :
  (M !! Name = None ->
     stubWithRet uninit Result Name M = Done M /\ stubWithAbort Name M = Done M)
  /\ (forall M' : LLVMModule,
        stubWithRet uninit Result Name M = Done M' \/ stubWithAbort Name M = Done M' ->
        (forall k, k ≠ Name -> M' !! k = M !! k)
        /\ (forall F, M' !! Name = Some F -> is_Some (M !! Name)
                      /\ length (BasicBlocks F) = 1%nat))
  /\ (forall M' : LLVMModule, stubWithRet uninit Result Name M = Done M' ->
        stubWithRet uninit Result Name M' = Done M')
  /\ (forall M' : LLVMModule, stubWithAbort Name M = Done M' ->
        stubWithAbort Name M' = Done M')
  /\ (forall (M' : LLVMModule) F0 uninit',
        stubWithRet uninit Result Name M = Done M' -> M !! Name = Some F0 ->
        isVoidTy (ReturnType F0) || isIntegerTy (ReturnType F0) = true ->
        stubWithRet uninit' Result Name M' = Done M').
Proof.
  split; [|split; [|split; [|split]]].
  - intros HN. split; [by apply stubWithRet_None | by apply stubWithAbort_None].
  - intros M' Hrun.
    assert (exists g : LLVMFunction -> LLVMFunction, forall k,
              (M' !! k = if decide (k = Name) then g <$> M !! k else M !! k)
              /\ forall F, length (BasicBlocks (g F)) = 1%nat) as (g & Hg).
    { destruct Hrun as [Hrun|Hrun].
      - exists (neutralized (uninit Name) Result). intros k. split; [|done].
        apply (stubWithRet_rewritesOnly _ _ _ _ _ Hrun k).
      - exists trapped. intros k. split; [|done].
        apply (stubWithAbort_rewritesOnly _ _ _ Hrun k). }
    split.
    + intros k Hk. destruct (Hg k) as [-> _]. by rewrite decide_False.
    + intros F HF. destruct (Hg Name) as [Hlk Hlen].
      rewrite Hlk, decide_True in HF by done.
      destruct (M !! Name) as [F1|]; [|discriminate].
      injection HF as <-. split; [by eexists | apply Hlen].
  - intros M' Hrun. destruct (M !! Name) as [F0|] eqn:HN.
    + rewrite (stubWithRet_Some _ _ _ _ _ HN) in Hrun.
      destruct (isVoidTy (ReturnType F0) && negb (Result =? 0)) eqn:Hc;
        [discriminate|]. injection Hrun as <-.
      rewrite (stubWithRet_Some _ _ _ _ (neutralized (uninit Name) Result F0))
        by apply lookup_insert_eq.
      change (ReturnType (neutralized (uninit Name) Result F0))
        with (ReturnType F0). rewrite Hc, insert_insert_eq. reflexivity.
    + rewrite (stubWithRet_None _ _ _ _ HN) in Hrun. injection Hrun as <-.
      by apply stubWithRet_None.
  - intros M' Hrun. destruct (M !! Name) as [F0|] eqn:HN.
    + rewrite (stubWithAbort_Some _ _ _ HN) in Hrun.
      destruct (bool_decide (M !! "abort" ≠ None)) eqn:Hab; [|discriminate].
      injection Hrun as <-. apply bool_decide_eq_true in Hab.
      rewrite (stubWithAbort_Some _ _ (trapped F0)) by apply lookup_insert_eq.
      rewrite bool_decide_true, insert_insert_eq; [reflexivity|].
      destruct (decide (Name = "abort")) as [->|Hne].
      * by rewrite lookup_insert_eq.
      * by rewrite lookup_insert_ne.
    + rewrite (stubWithAbort_None _ _ HN) in Hrun. injection Hrun as <-.
      by apply stubWithAbort_None.
  - intros M' F0 uninit' Hrun HN HT.
    rewrite (stubWithRet_Some _ _ _ _ _ HN) in Hrun.
    destruct (isVoidTy (ReturnType F0) && negb (Result =? 0)) eqn:Hc;
      [discriminate|]. injection Hrun as <-.
    rewrite (stubWithRet_Some _ _ _ _ (neutralized (uninit Name) Result F0))
      by apply lookup_insert_eq.
    change (ReturnType (neutralized (uninit Name) Result F0))
      with (ReturnType F0). rewrite Hc, insert_insert_eq.
    unfold neutralized. simpl. destruct (ReturnType F0); [reflexivity..|discriminate].
Qed.

Lemma stubbing_skips_missing_and_repeats_witness :
  Sample.helpers !! "cpu_exit" = None
  /\ stubWithRet Sample.nullptr 0 "cpu_exit" Sample.helpers = Done Sample.helpers
  /\ stubWithAbort "cpu_exit" Sample.helpers = Done Sample.helpers.
Proof.
  split; [reflexivity|].
  apply (proj1 (stubbing_skips_missing_and_repeats Sample.nullptr 0 "cpu_exit"
                  Sample.helpers)).
  reflexivity.
Defined.

(** C10: when the stubbing completes, every function of the module whose
    name is in the neutralize list, in the trap list, or is one of the two
    functions with a fixed result, has internal linkage; so has whatever
    [replaceFunction] returns. *)
Theorem every_stub_is_internal (uninit : string -> option Value)
    (M M' : LLVMModule) (Name : string) (F0 : LLVMFunction) :
  stubHelpers uninit M = Done M' ->
  In Name (NoOpFunctionNames ++ AbortFunctionNames
             ++ ["page_check_range"; "page_get_flags"])%list ->
  M !! Name = Some F0 ->
  linkage (snd (replaceFunction F0)) = InternalLinkage
  /\ exists F, M' !! Name = Some F /\ linkage F = InternalLinkage.
Proof.
  intros Hrun Hin HF. split; [reflexivity|].
  exists (stubOf uninit Name F0). split.
  - rewrite (stubHelpers_lookup _ _ _ Hrun), HF. reflexivity.
  - apply list_elem_of_In in Hin. rewrite !elem_of_app in Hin. unfold stubOf.
    destruct (decide (Name ∈ NoOpFunctionNames)); [reflexivity|].
    destruct (decide (Name ∈ AbortFunctionNames)); [reflexivity|].
    destruct (decide (Name = "page_check_range")); [reflexivity|].
    destruct (decide (Name = "page_get_flags")); [reflexivity|].
    destruct Hin as [?|[?|Hin]]; [done..|].
    apply elem_of_cons in Hin as [?|Hin]; [done|].
    apply elem_of_cons in Hin as [?|Hin]; [done|].
    by apply not_elem_of_nil in Hin.
Qed.

Lemma every_stub_is_internal_witness :
  exists M' : LLVMModule,
    stubHelpers Sample.nullptr Sample.helpers = Done M'
    /\ In "queue_signal" (NoOpFunctionNames ++ AbortFunctionNames
                            ++ ["page_check_range"; "page_get_flags"])%list
    /\ Sample.helpers !! "queue_signal" = Some (Sample.extern Sample.i32)
    /\ exists F, M' !! "queue_signal" = Some F /\ linkage F = InternalLinkage.
Proof.
  destruct (stubHelpers Sample.nullptr Sample.helpers) as [M'| |] eqn:Hrun;
    [|vm_compute in Hrun; discriminate..].
  exists M'. split; [reflexivity|].
  assert (Hin : In "queue_signal" (NoOpFunctionNames ++ AbortFunctionNames
                  ++ ["page_check_range"; "page_get_flags"])%list)
    by (simpl; tauto).
  split; [exact Hin|]. split; [reflexivity|].
  exact (proj2 (every_stub_is_internal Sample.nullptr Sample.helpers M'
                  "queue_signal" (Sample.extern Sample.i32) Hrun Hin eq_refl)).
Defined.

End StubFacts.

(** ** The metadata tagging walk *)

Module TaggingFacts.

Lemma hasMetadata_stamp oi pi Inst : hasMetadata (stamp oi pi Inst) = true.
Proof.
  unfold hasMetadata, stamp, setMetadata. simpl.
  rewrite bool_decide_false; [reflexivity|]. apply insert_non_empty.
Qed.

Lemma stamp_pair oi pi Inst :
  metadata (stamp oi pi Inst) !! OriginalInstrMDKind = oi
  /\ metadata (stamp oi pi Inst) !! PTCInstrMDKind = Some pi.
Proof.
  unfold stamp, setMetadata. simpl. split.
  - rewrite lookup_insert_ne by done. destruct oi.
    + apply lookup_insert_eq.
    + apply lookup_delete_eq.
  - apply lookup_insert_eq.
Qed.

Lemma stamp_opcode oi pi Inst : opcode (stamp oi pi Inst) = opcode Inst.
Proof. reflexivity. Qed.

(** The walk, seen from the end of the block: it stamps the instructions
    it meets until the first one that has metadata. *)
Lemma tagBackward_split oi pi fromEnd :
  exists fresh old,
    fromEnd = (fresh ++ old)%list
    /\ Forall (fun Inst => hasMetadata Inst = false) fresh
    /\ (old = [] \/ exists Inst before, old = Inst :: before /\ hasMetadata Inst = true)
    /\ tagBackward oi pi fromEnd = (map (stamp oi pi) fresh ++ old)%list.
Proof.
  induction fromEnd as [|Inst before IH].
  - exists [], []. repeat split; auto.
  - simpl. destruct (hasMetadata Inst) eqn:HI.
    + exists [], (Inst :: before). repeat split; eauto.
    + destruct IH as (fresh & old & -> & Hfresh & Hold & ->).
      exists (Inst :: fresh), old. repeat split; auto.
Qed.

Lemma tagBlock_split oi pi insts :
  exists annotated fresh,
    insts = (annotated ++ fresh)%list
    /\ Forall (fun Inst => hasMetadata Inst = false) fresh
    /\ (annotated = [] \/
        exists before Inst, annotated = (before ++ [Inst])%list
                            /\ hasMetadata Inst = true)
    /\ tagBlock oi pi insts = (annotated ++ map (stamp oi pi) fresh)%list.
Proof.
  destruct (tagBackward_split oi pi (rev insts))
    as (fresh & old & Hrev & Hfresh & Hold & Htag).
  exists (rev old), (rev fresh). split; [|split; [|split]].
  - rewrite <- rev_app_distr, <- Hrev. symmetry. apply rev_involutive.
  - apply Forall_forall. intros Inst Hin. rewrite Forall_forall in Hfresh.
    apply Hfresh. apply list_elem_of_In. apply list_elem_of_In in Hin.
    by apply in_rev.
  - destruct Hold as [->|(Inst & before & -> & HI)]; [by left|].
    right. exists (rev before), Inst. split; [reflexivity|done].
  - unfold tagBlock. rewrite Htag, rev_app_distr, map_rev. reflexivity.
Qed.

Lemma tagBackward_again oi pi oi' pi' fromEnd :
  tagBackward oi' pi' (tagBackward oi pi fromEnd) = tagBackward oi pi fromEnd.
Proof.
  destruct fromEnd as [|Inst before]; [reflexivity|]. simpl.
  destruct (hasMetadata Inst) eqn:HI; simpl.
  - by rewrite HI.
  - by rewrite hasMetadata_stamp.
Qed.

Lemma tagBlock_again oi pi oi' pi' insts :
  tagBlock oi' pi' (tagBlock oi pi insts) = tagBlock oi pi insts.
Proof. unfold tagBlock. by rewrite rev_involutive, tagBackward_again. Qed.

Lemma tagBlocks_lookup oi pi Blocks (st : gmap BlockId (list Instruction)) Block :
  tagBlocks oi pi Blocks st !! Block =
    if decide (Block ∈ Blocks) then tagBlock oi pi <$> st !! Block
    else st !! Block.
Proof.
  revert st. induction Blocks as [|B rest IH]; intros st.
  - destruct (decide (Block ∈ [])) as [Hin|]; [|done].
    by apply not_elem_of_nil in Hin.
  - cbn [tagBlocks]. rewrite IH, lookup_alter.
    destruct (decide (B = Block)) as [->|Hne].
    + rewrite (decide_True (P := Block ∈ Block :: rest)) by left.
      destruct (decide (Block ∈ rest)); [|done].
      destruct (st !! Block); simpl; [|done]. by rewrite tagBlock_again.
    + destruct (decide (Block ∈ rest)) as [Hin|Hout].
      * rewrite decide_True by (by right). done.
      * rewrite decide_False; [done|]. rewrite elem_of_cons.
        intros [Heq|?]; [by symmetry in Heq | done].
Qed.

Lemma tagBlocks_again oi pi oi' pi' Blocks (st : gmap BlockId (list Instruction)) :
  tagBlocks oi' pi' Blocks (tagBlocks oi pi Blocks st) = tagBlocks oi pi Blocks st.
Proof.
  apply map_eq. intros Block. rewrite !tagBlocks_lookup.
  destruct (decide (Block ∈ Blocks)); [|done].
  destruct (st !! Block); simpl; [|done]. by rewrite tagBlock_again.
Qed.

(** A block whose second instruction is annotated: the walk stamps what
    follows it and leaves the unannotated instruction before it alone. *)
Example tagBlock_stops_at_annotated oi pi :
  tagBlock oi pi
    [newInst (OtherInst 1); Sample.annotated; newInst (OtherInst 2);
     newInst (OtherInst 3)]
  = [newInst (OtherInst 1); Sample.annotated;
     stamp oi pi (newInst (OtherInst 2)); stamp oi pi (newInst (OtherInst 3))].
Proof. reflexivity. Qed.

(** C5: on one block the walk leaves the instructions up to the last
    annotated one as they are and stamps every instruction after it, none
    of which had metadata, with the current pair; over the blocks of
    [Blocks] it does so to each listed block and to no other; and run a
    second time over the same blocks, with the same pair or with another,
    it changes nothing. *)
Theorem tagging_walk_idempotent (oi : option MDNode) (pi : MDNode) :
  (forall insts, exists annotated fresh,
      insts = (annotated ++ fresh)%list
      /\ Forall (fun Inst => hasMetadata Inst = false) fresh
      /\ (annotated = [] \/
          exists before Inst, annotated = (before ++ [Inst])%list
                              /\ hasMetadata Inst = true)
      /\ tagBlock oi pi insts = (annotated ++ map (stamp oi pi) fresh)%list)
  /\ (forall Inst, metadata (stamp oi pi Inst) !! OriginalInstrMDKind = oi
                   /\ metadata (stamp oi pi Inst) !! PTCInstrMDKind = Some pi
                   /\ hasMetadata (stamp oi pi Inst) = true)
  /\ (forall Blocks (st : gmap BlockId (list Instruction)) Block,
        tagBlocks oi pi Blocks st !! Block =
          if decide (Block ∈ Blocks) then tagBlock oi pi <$> st !! Block
          else st !! Block)
  /\ (forall oi' pi' Blocks (st : gmap BlockId (list Instruction)),
        tagBlocks oi' pi' Blocks (tagBlocks oi pi Blocks st)
          = tagBlocks oi pi Blocks st)
  /\ (forall X (e : Env X),
        setMetadataForNewInstructions oi pi (setMetadataForNewInstructions oi pi e)
          = setMetadataForNewInstructions oi pi e).
Proof.
  split; [apply tagBlock_split|]. split.
  { intros Inst. destruct (stamp_pair oi pi Inst). auto using hasMetadata_stamp. }
  split; [apply tagBlocks_lookup|]. split; [apply tagBlocks_again|].
  intros X e. unfold setMetadataForNewInstructions, withBlocks. simpl.
  by rewrite tagBlocks_again.
Qed.

End TaggingFacts.

(** ** The loop over the pseudo-ops of a batch *)

Module TranslateFacts.
Import Translate.

Section Loop.
Context {X : Type} {C : Collaborators X}.
Variable InstructionList : PTCInstructionList.
Variable NextPC : Z.

Local Abbreviation n := (length InstructionList).
Local Abbreviation marker := PTC_INSTRUCTION_op_debug_insn_start.
Local Abbreviation callOp := PTC_INSTRUCTION_op_call.
Local Abbreviation dispatched := (Translate.dispatched InstructionList NextPC).
Local Abbreviation nodeOf := (Translate.nodeOf InstructionList NextPC).

Ltac dispatch_cases Inst s :=
  unfold dispatch;
  destruct (opc Inst) eqn:?;
  [ | destruct (newInstruction Inst false (env s)) as [[? ?] ?]
    | destruct (_ =? _)%nat eqn:?;
      [destruct (getBlockAt NextPC (translateCall Inst (env s))) as [? ?]|]
    | ]; simpl.

Lemma dispatch_not_tagged j Inst (s : LoopState X) k oi pi :
  ~ In (Tagged k oi pi) (snd (dispatch NextPC n j Inst s)).
Proof. dispatch_cases Inst s; intuition discriminate. Qed.

Lemma dispatch_keeps_MD j Inst (s : LoopState X) :
  opc Inst <> marker ->
  MDOriginalInstr (fst (dispatch NextPC n j Inst s)) = MDOriginalInstr s.
Proof. intros Hop. dispatch_cases Inst s; congruence. Qed.

Lemma dispatch_EmittedBr j Inst (s : LoopState X) k From PC Dest :
  (j < n)%nat ->
  In (EmittedBr k From PC Dest) (snd (dispatch NextPC n j Inst s)) ->
  k = j /\ PC = NextPC /\ opc Inst = callOp /\ S j = n.
Proof.
  intros Hj. dispatch_cases Inst s; try (intuition discriminate).
  intros [Hx|[Hx|[]]]; [discriminate|]. injection Hx as <- _ <- _.
  apply Nat.eqb_eq in Heqb. repeat split; lia.
Qed.

Lemma dispatch_call j Inst (s : LoopState X) :
  opc Inst = callOp -> (j < n)%nat ->
  dispatch NextPC n j Inst s =
    let e1 := translateCall Inst (env s) in
    if decide (S j = n) then
      (mkLoopState (StopTranslation s) (MDOriginalInstr s)
         (CreateBr (fst (getBlockAt NextPC e1)) (snd (getBlockAt NextPC e1))),
       [CalledTranslateCall j;
        EmittedBr j (GetInsertBlock (snd (getBlockAt NextPC e1))) NextPC
          (fst (getBlockAt NextPC e1))])
    else
      (mkLoopState (StopTranslation s) (MDOriginalInstr s) e1,
       [CalledTranslateCall j]).
Proof.
  intros Hop Hj. unfold dispatch. rewrite Hop. simpl.
  destruct (decide (S j = n)) as [Heq|Hne].
  - rewrite (proj2 (Nat.eqb_eq j (n - 1))) by lia.
    destruct (getBlockAt NextPC (translateCall Inst (env s))). reflexivity.
  - rewrite (proj2 (Nat.eqb_neq j (n - 1))) by lia. reflexivity.
Qed.

Lemma dispatch_CalledTranslateCall j Inst (s : LoopState X) k :
  (j < n)%nat ->
  In (CalledTranslateCall k) (snd (dispatch NextPC n j Inst s)) ->
  k = j /\ opc Inst = callOp.
Proof.
  intros Hj. dispatch_cases Inst s; try (intuition discriminate).
  - intros [Hx|[Hx|[]]]; [|discriminate]. injection Hx as <-. done.
  - intros [Hx|[]]. injection Hx as <-. done.
Qed.

Lemma loopBody_eq j Inst (s : LoopState X) :
  loopBody InstructionList NextPC j Inst s =
    (mkLoopState (StopTranslation (fst (dispatched j Inst s)))
       (MDOriginalInstr (fst (dispatched j Inst s)))
       (setMetadataForNewInstructions
          (MDOriginalInstr (fst (dispatched j Inst s))) (nodeOf j Inst s)
          (snd (MDNode_getDistinct (dumpInstruction InstructionList j ++ newline)
                  (env (fst (dispatched j Inst s)))))),
     (snd (dispatched j Inst s)
        ++ [Tagged j (MDOriginalInstr (fst (dispatched j Inst s)))
                   (nodeOf j Inst s)])%list).
Proof.
  unfold loopBody, Translate.nodeOf, Translate.dispatched.
  destruct (dispatch _ _ _ _ _) as [s1 acts]. reflexivity.
Qed.

Lemma instructionLoop_cons j Inst rest (s : LoopState X) :
  instructionLoop InstructionList NextPC j (Inst :: rest) s =
    if StopTranslation s then (s, [])
    else
      let b := loopBody InstructionList NextPC j Inst s in
      let r := instructionLoop InstructionList NextPC (S j) rest (fst b) in
      (fst r, (snd b ++ snd r)%list).
Proof.
  simpl. destruct (StopTranslation s); [reflexivity|].
  destruct (loopBody _ _ _ _ _) as [s1 acts].
  destruct (instructionLoop _ _ _ _ _) as [s2 acts']. reflexivity.
Qed.

Lemma drop_cons_inv (j : nat) (Inst : PTCInstruction) rest :
  drop j InstructionList = Inst :: rest ->
  InstructionList !! j = Some Inst /\ drop (S j) InstructionList = rest
  /\ (j < n)%nat.
Proof.
  intros H. assert (Hj : InstructionList !! j = Some Inst).
  { rewrite <- (Nat.add_0_r j), <- lookup_drop, H. reflexivity. }
  split; [done|]. split; [|by eapply lookup_lt_Some].
  rewrite (drop_S _ _ _ Hj) in H. by injection H.
Qed.

(** What the log of one turn holds. *)
Lemma loopBody_Tagged j Inst (s : LoopState X) k oi pi :
  In (Tagged k oi pi) (snd (loopBody InstructionList NextPC j Inst s)) ->
  k = j /\ oi = MDOriginalInstr (fst (loopBody InstructionList NextPC j Inst s))
  /\ pi = nodeOf j Inst s.
Proof.
  rewrite loopBody_eq. simpl. rewrite in_app_iff. intros [H|[H|[]]].
  - by apply dispatch_not_tagged in H.
  - injection H as <- <- <-. done.
Qed.

Lemma loopBody_keeps_MD j Inst (s : LoopState X) :
  opc Inst <> marker ->
  MDOriginalInstr (fst (loopBody InstructionList NextPC j Inst s))
    = MDOriginalInstr s.
Proof.
  intros Hop. rewrite loopBody_eq. simpl. unfold Translate.dispatched.
  by rewrite dispatch_keeps_MD.
Qed.

Lemma loop_Tagged_index rest : forall j (s : LoopState X) k oi pi,
  In (Tagged k oi pi) (snd (instructionLoop InstructionList NextPC j rest s)) ->
  (j <= k)%nat
  /\ node_operand pi = dumpInstruction InstructionList k ++ newline.
Proof.
  induction rest as [|Inst rest IH]; intros j s k oi pi Hin.
  - destruct Hin.
  - rewrite instructionLoop_cons in Hin.
    destruct (StopTranslation s); [destruct Hin|]. simpl in Hin.
    apply in_app_iff in Hin as [Hin|Hin].
    + apply loopBody_Tagged in Hin as (-> & _ & ->). split; [lia|reflexivity].
    + apply IH in Hin as [? ?]. split; [lia|done].
Qed.

Lemma loop_Tagged_oi rest : forall j (s : LoopState X) k oi pi,
  drop j InstructionList = rest ->
  In (Tagged k oi pi) (snd (instructionLoop InstructionList NextPC j rest s)) ->
  (forall i Inst, (j <= i <= k)%nat -> InstructionList !! i = Some Inst ->
                  opc Inst <> marker) ->
  oi = MDOriginalInstr s.
Proof.
  induction rest as [|Inst rest IH]; intros j s k oi pi Hdrop Hin Hno.
  - destruct Hin.
  - apply drop_cons_inv in Hdrop as (Hj & Hdrop & _).
    rewrite instructionLoop_cons in Hin.
    destruct (StopTranslation s); [destruct Hin|]. simpl in Hin.
    apply in_app_iff in Hin as [Hin|Hin].
    + apply loopBody_Tagged in Hin as (-> & -> & _).
      apply loopBody_keeps_MD. apply (Hno j); [lia|done].
    + pose proof (loop_Tagged_index _ _ _ _ _ _ Hin) as [Hk _].
      rewrite (IH _ _ _ _ _ Hdrop Hin).
      * apply loopBody_keeps_MD. apply (Hno j); [lia|done].
      * intros i Inst' Hi. apply Hno. lia.
Qed.

Lemma loop_Tagged_pair rest : forall j (s : LoopState X) j1 oi1 pi1 j2 oi2 pi2,
  drop j InstructionList = rest ->
  In (Tagged j1 oi1 pi1) (snd (instructionLoop InstructionList NextPC j rest s)) ->
  In (Tagged j2 oi2 pi2) (snd (instructionLoop InstructionList NextPC j rest s)) ->
  (j1 <= j2)%nat -> noMarkerBetween InstructionList j1 j2 ->
  oi1 = oi2 /\ (j1 = j2 -> pi1 = pi2).
Proof.
  induction rest as [|Inst rest IH];
    intros j s j1 oi1 pi1 j2 oi2 pi2 Hdrop H1 H2 Hle Hno.
  - destruct H1.
  - apply drop_cons_inv in Hdrop as (Hj & Hdrop & _).
    rewrite instructionLoop_cons in H1, H2.
    destruct (StopTranslation s); [destruct H1|]. simpl in H1, H2.
    apply in_app_iff in H1 as [H1|H1]; apply in_app_iff in H2 as [H2|H2].
    + apply loopBody_Tagged in H1 as (-> & -> & ->).
      apply loopBody_Tagged in H2 as (-> & -> & ->). done.
    + apply loopBody_Tagged in H1 as (-> & -> & _).
      pose proof (loop_Tagged_index _ _ _ _ _ _ H2) as [Hk _].
      split; [|lia]. symmetry. apply (loop_Tagged_oi _ _ _ _ _ _ Hdrop H2).
      intros i Inst' Hi. apply Hno. lia.
    + apply loopBody_Tagged in H2 as (-> & _ & _).
      pose proof (loop_Tagged_index _ _ _ _ _ _ H1) as [Hk _]. lia.
    + by apply (IH _ _ _ _ _ _ _ _ Hdrop H1 H2).
Qed.

Lemma loopBody_EmittedBr j Inst (s : LoopState X) k From PC Dest :
  (j < n)%nat ->
  In (EmittedBr k From PC Dest) (snd (loopBody InstructionList NextPC j Inst s)) ->
  k = j /\ PC = NextPC /\ opc Inst = callOp /\ S j = n.
Proof.
  intros Hj. rewrite loopBody_eq. simpl. rewrite in_app_iff.
  intros [H|[H|[]]]; [|discriminate].
  by apply dispatch_EmittedBr in H.
Qed.

Lemma loopBody_CalledTranslateCall j Inst (s : LoopState X) k :
  (j < n)%nat ->
  In (CalledTranslateCall k) (snd (loopBody InstructionList NextPC j Inst s)) ->
  k = j /\ opc Inst = callOp.
Proof.
  intros Hj. rewrite loopBody_eq. simpl. rewrite in_app_iff.
  intros [H|[H|[]]]; [|discriminate].
  by apply dispatch_CalledTranslateCall in H.
Qed.

(** The log of the turn that handles a call: the call handler, then the
    branch when the call is the last pseudo-op, then the tagging walk. *)
Lemma loopBody_call j Inst (s : LoopState X) :
  opc Inst = callOp -> (j < n)%nat ->
  exists oi pi,
    snd (loopBody InstructionList NextPC j Inst s) =
      if decide (S j = n) then
        let e1 := translateCall Inst
                    (withBlocksVector [GetInsertBlock (env s)] (env s)) in
        [CalledTranslateCall j;
         EmittedBr j (GetInsertBlock (snd (getBlockAt NextPC e1))) NextPC
           (fst (getBlockAt NextPC e1));
         Tagged j oi pi]
      else [CalledTranslateCall j; Tagged j oi pi].
Proof.
  intros Hop Hj. rewrite loopBody_eq. simpl. unfold Translate.dispatched.
  rewrite (dispatch_call _ _ _ Hop Hj). simpl.
  destruct (decide (S j = n)); simpl; eauto.
Qed.

Lemma loop_EmittedBr rest : forall j (s : LoopState X) k From PC Dest,
  drop j InstructionList = rest ->
  In (EmittedBr k From PC Dest)
     (snd (instructionLoop InstructionList NextPC j rest s)) ->
  S k = n /\ PC = NextPC
  /\ exists Inst, InstructionList !! k = Some Inst /\ opc Inst = callOp.
Proof.
  induction rest as [|Inst rest IH]; intros j s k From PC Dest Hdrop Hin.
  - destruct Hin.
  - apply drop_cons_inv in Hdrop as (Hj & Hdrop & Hlt).
    rewrite instructionLoop_cons in Hin.
    destruct (StopTranslation s); [destruct Hin|]. simpl in Hin.
    apply in_app_iff in Hin as [Hin|Hin].
    + apply (loopBody_EmittedBr _ _ _ _ _ _ _ Hlt) in Hin as (-> & -> & ? & ?).
      eauto.
    + by apply (IH _ _ _ _ _ _ Hdrop Hin).
Qed.

Lemma loop_call_then_branch rest : forall j (s : LoopState X) k,
  drop j InstructionList = rest ->
  In (CalledTranslateCall k)
     (snd (instructionLoop InstructionList NextPC j rest s)) ->
  S k = n ->
  exists pre post From Dest,
    snd (instructionLoop InstructionList NextPC j rest s) =
      (pre ++ CalledTranslateCall k :: EmittedBr k From NextPC Dest :: post)%list.
Proof.
  induction rest as [|Inst rest IH]; intros j s k Hdrop Hin Hlast.
  - destruct Hin.
  - apply drop_cons_inv in Hdrop as (Hj & Hdrop & Hlt).
    rewrite instructionLoop_cons in Hin |- *.
    destruct (StopTranslation s); [destruct Hin|]. simpl in Hin |- *.
    apply in_app_iff in Hin as [Hin|Hin].
    + apply (loopBody_CalledTranslateCall _ _ _ _ Hlt) in Hin as [-> Hop].
      destruct (loopBody_call j Inst s Hop Hlt) as (oi & pi & ->).
      rewrite decide_True by done. simpl.
      exists [], (Tagged j oi pi
                  :: snd (instructionLoop InstructionList NextPC (S j) rest
                            (fst (loopBody InstructionList NextPC j Inst s)))).
      eauto.
    + destruct (IH _ _ _ Hdrop Hin Hlast) as (pre & post & From & Dest & ->).
      exists (snd (loopBody InstructionList NextPC j Inst s) ++ pre)%list,
             post, From, Dest.
      by rewrite <- app_assoc.
Qed.

Lemma loop_runs_call_handler rest : forall j (s : LoopState X) k Inst,
  drop j InstructionList = rest ->
  StopTranslation (fst (instructionLoop InstructionList NextPC j rest s)) = false ->
  (j <= k)%nat -> InstructionList !! k = Some Inst -> opc Inst = callOp ->
  In (CalledTranslateCall k)
     (snd (instructionLoop InstructionList NextPC j rest s)).
Proof.
  induction rest as [|Inst0 rest IH]; intros j s k Inst Hdrop Hstop Hle Hk Hop.
  - apply drop_nil_inv in Hdrop. apply lookup_lt_Some in Hk. lia.
  - apply drop_cons_inv in Hdrop as (Hj & Hdrop & Hlt).
    rewrite instructionLoop_cons in Hstop |- *.
    destruct (StopTranslation s) eqn:Hs; [simpl in Hstop; congruence|].
    simpl in Hstop |- *. apply in_app_iff.
    destruct (decide (k = j)) as [->|Hne].
    + left. rewrite Hj in Hk. injection Hk as ->.
      destruct (loopBody_call j Inst s Hop Hlt) as (oi & pi & ->).
      destruct (decide (S j = n)); simpl; auto.
    + right. apply (IH _ _ _ Inst Hdrop Hstop); [lia|done..].
Qed.

End Loop.

Section Batch.
Context {X : Type} {C : Collaborators X}.

(** A batch that was translated: the first pseudo-op went to the boundary
    handler, the others through the loop. *)
Lemma translateBatch_Done CodePointer CodeEnd Entry VirtualAddress ConsumedSize
    InstructionList (e : Env X) s log :
  translateBatch CodePointer CodeEnd Entry VirtualAddress ConsumedSize
    InstructionList e = Done (s, log) ->
  exists First rest s0,
    InstructionList = First :: rest
    /\ log = CalledNewInstruction 0 true
             :: snd (instructionLoop InstructionList
                       (wrap64 (wrap64 VirtualAddress + wrap64 ConsumedSize))
                       1 rest s0)
    /\ StopTranslation s =
         StopTranslation
           (fst (instructionLoop InstructionList
                   (wrap64 (wrap64 VirtualAddress + wrap64 ConsumedSize))
                   1 rest s0)).
Proof.
  unfold translateBatch. intros H.
  apply bind_Done_inv in H as ([] & _ & H).
  destruct InstructionList as [|First rest]; [discriminate|].
  destruct (newInstruction First true _) as [[Stop MD] e1].
  destruct (instructionLoop _ _ _ _ _) as [s1 acts] eqn:Hloop.
  injection H as <- <-. exists First, rest, (mkLoopState Stop MD e1).
  rewrite Hloop. auto.
Qed.

Lemma CreateBr_emits Dest (e : Env X) :
  instsOf (CreateBr Dest e) (GetInsertBlock e) =
    match InsertPt e with
    | None => (instsOf e (GetInsertBlock e) ++ [newInst (Br Dest)])%list
    | Some k => (take k (instsOf e (GetInsertBlock e))
                   ++ newInst (Br Dest) :: drop k (instsOf e (GetInsertBlock e)))%list
    end.
Proof.
  unfold CreateBr, Insert, GetInsertBlock.
  destruct (InsertPt e); unfold instsOf at 1; simpl;
    by rewrite lookup_insert_eq.
Qed.

(** C1: in a batch that was translated, a call handled at the last index
    is followed at once, in what the orchestrator does, by a branch it
    emits with its own builder to the block [getBlockAt] gives for the next
    sequential address, the current virtual address plus the bytes the
    decoder consumed; the orchestrator emits a branch nowhere else, so none
    after a call that is not the last pseudo-op; the call handler does run
    on every call after the first pseudo-op when no boundary handler asked
    to stop; and the dispatch of a call is the call handler followed, at the
    last index only, by the insertion of that branch at the insertion point
    of the builder. *)
Theorem call_at_end_gets_fallthrough CodePointer CodeEnd Entry VirtualAddress
    ConsumedSize InstructionList (e : Env X) s log :
  translateBatch CodePointer CodeEnd Entry VirtualAddress ConsumedSize
    InstructionList e = Done (s, log) ->
  let NextPC := wrap64 (wrap64 VirtualAddress + wrap64 ConsumedSize) in
  (forall j, In (CalledTranslateCall j) log -> S j = length InstructionList ->
     exists pre post From Dest,
       log = (pre ++ CalledTranslateCall j
                  :: EmittedBr j From NextPC Dest :: post)%list)
  /\ (forall j From PC Dest, In (EmittedBr j From PC Dest) log ->
        S j = length InstructionList /\ PC = NextPC
        /\ exists Inst, InstructionList !! j = Some Inst
                        /\ opc Inst = PTC_INSTRUCTION_op_call)
  /\ (StopTranslation s = false ->
      forall j Inst, (1 <= j)%nat -> InstructionList !! j = Some Inst ->
        opc Inst = PTC_INSTRUCTION_op_call -> In (CalledTranslateCall j) log)
  /\ (forall j Inst (s0 : LoopState X),
        opc Inst = PTC_INSTRUCTION_op_call -> (j < length InstructionList)%nat ->
        dispatch NextPC (length InstructionList) j Inst s0 =
          let e1 := translateCall Inst (env s0) in
          if decide (S j = length InstructionList) then
            (mkLoopState (StopTranslation s0) (MDOriginalInstr s0)
               (CreateBr (fst (getBlockAt NextPC e1)) (snd (getBlockAt NextPC e1))),
             [CalledTranslateCall j;
              EmittedBr j (GetInsertBlock (snd (getBlockAt NextPC e1))) NextPC
                (fst (getBlockAt NextPC e1))])
          else
            (mkLoopState (StopTranslation s0) (MDOriginalInstr s0) e1,
             [CalledTranslateCall j]))
  /\ (forall Dest (e0 : Env X),
        instsOf (CreateBr Dest e0) (GetInsertBlock e0) =
          match InsertPt e0 with
          | None => (instsOf e0 (GetInsertBlock e0) ++ [newInst (Br Dest)])%list
          | Some k =>
            (take k (instsOf e0 (GetInsertBlock e0))
               ++ newInst (Br Dest) :: drop k (instsOf e0 (GetInsertBlock e0)))%list
          end).
Proof.
  intros Hrun NextPC.
  apply translateBatch_Done in Hrun as (First & rest & s0 & HIL & -> & Hstop).
  fold NextPC in Hstop |- *.
  assert (Hdrop : drop 1 InstructionList = rest) by (by rewrite HIL).
  split; [|split; [|split; [|split]]].
  - intros j [Hx|Hin] Hlast; [discriminate|].
    destruct (loop_call_then_branch _ _ _ _ _ _ Hdrop Hin Hlast)
      as (pre & post & From & Dest & ->).
    by exists (CalledNewInstruction 0 true :: pre), post, From, Dest.
  - intros j From PC Dest [Hx|Hin]; [discriminate|].
    by apply (loop_EmittedBr _ _ _ _ _ _ _ _ _ Hdrop Hin).
  - intros Hs j Inst Hj Hlk Hop. right.
    apply (loop_runs_call_handler _ _ _ _ _ _ Inst Hdrop); [congruence|done..].
  - intros j Inst s1 Hop Hj. by apply dispatch_call.
  - apply CreateBr_emits.
Qed.

(** C4, as amended: in a batch that was translated, two tagging walks with
    no instruction-start marker dispatched after the first and up to the
    second use the same original-instruction node, and one walk uses one
    pseudo-op node, whose text is the line [dumpInstruction] prints for the
    pseudo-op just dispatched; each turn of the loop ends with the walk for
    that pair; and the walk gives every instruction it stamps that pair. *)
Theorem tags_between_markers CodePointer CodeEnd Entry VirtualAddress
    ConsumedSize InstructionList (e : Env X) s log :
  translateBatch CodePointer CodeEnd Entry VirtualAddress ConsumedSize
    InstructionList e = Done (s, log) ->
  (forall j1 oi1 pi1 j2 oi2 pi2,
     In (Tagged j1 oi1 pi1) log -> In (Tagged j2 oi2 pi2) log ->
     (j1 <= j2)%nat -> noMarkerBetween InstructionList j1 j2 ->
     oi1 = oi2 /\ (j1 = j2 -> pi1 = pi2)
     /\ node_operand pi1 = dumpInstruction InstructionList j1 ++ newline)
  /\ (forall NextPC j Inst (s0 : LoopState X),
        exists acts oi pi e1,
          loopBody InstructionList NextPC j Inst s0 =
            (mkLoopState
               (StopTranslation (fst (loopBody InstructionList NextPC j Inst s0)))
               oi (setMetadataForNewInstructions oi pi e1),
             (acts ++ [Tagged j oi pi])%list))
  /\ (forall oi pi insts,
        exists annotated fresh,
          insts = (annotated ++ fresh)%list
          /\ tagBlock oi pi insts = (annotated ++ map (stamp oi pi) fresh)%list)
  /\ (forall oi pi Inst,
        metadata (stamp oi pi Inst) !! OriginalInstrMDKind = oi
        /\ metadata (stamp oi pi Inst) !! PTCInstrMDKind = Some pi).
Proof.
  intros Hrun.
  apply translateBatch_Done in Hrun as (First & rest & s0 & HIL & -> & _).
  assert (Hdrop : drop 1 InstructionList = rest) by (by rewrite HIL).
  split; [|split; [|split]].
  - intros j1 oi1 pi1 j2 oi2 pi2 [Hx|H1] [Hy|H2] Hle Hno; try discriminate.
    destruct (loop_Tagged_pair _ _ _ _ _ _ _ _ _ _ _ Hdrop H1 H2 Hle Hno).
    destruct (loop_Tagged_index _ _ _ _ _ _ _ _ H1). auto.
  - intros NextPC j Inst s1. rewrite loopBody_eq. simpl. eauto 10.
  - intros oi pi insts.
    destruct (TaggingFacts.tagBlock_split oi pi insts)
      as (annotated & fresh & ? & _ & _ & ?). eauto.
  - intros. apply TaggingFacts.stamp_pair.
Qed.

End Batch.

Lemma call_at_end_gets_fallthrough_witness :
  exists s log,
    translateBatch (C := Sample.collaborators) 0 16 0%N 0x1000 8
      Sample.endsOnCall Sample.emptyEnv = Done (s, log)
    /\ exists pre post From Dest,
         log = (pre ++ CalledTranslateCall 2
                    :: EmittedBr 2 From 0x1008 Dest :: post)%list.
Proof.
  destruct (translateBatch (C := Sample.collaborators) 0 16 0%N 0x1000 8
              Sample.endsOnCall Sample.emptyEnv) as [[s log]| |] eqn:Hrun;
    [|vm_compute in Hrun; discriminate..].
  exists s, log. split; [reflexivity|].
  destruct (call_at_end_gets_fallthrough _ _ _ _ _ _ _ _ _ Hrun)
    as (Hbr & Honly & Hcall & _).
  assert (Hs : StopTranslation s = false)
    by (vm_compute in Hrun; injection Hrun as <- _; reflexivity).
  exact (Hbr 2%nat (Hcall Hs 2%nat Sample.call ltac:(lia) eq_refl eq_refl) eq_refl).
Defined.

(** C4, as stated, fails: of the two ordinary pseudo-ops that follow the
    marker of the batch [twoOps], each has the instruction it emitted
    stamped with a pseudo-op node of its own. *)
Lemma same_pair_between_markers_fails :
  exists s log,
    translateBatch (C := Sample.collaborators) 0 16 0%N 0x1000 8
      Sample.twoOps Sample.emptyEnv = Done (s, log)
    /\ ~ samePairBetweenMarkers Sample.twoOps log
    /\ exists I1 I2,
         instsOf (env s) 0%N = [I1; I2]
         /\ metadata I1 !! OriginalInstrMDKind = metadata I2 !! OriginalInstrMDKind
         /\ metadata I1 !! PTCInstrMDKind <> metadata I2 !! PTCInstrMDKind.
Proof.
  eexists. eexists. split; [vm_compute; reflexivity|]. split.
  - intros Hsame.
    destruct (Hsame 1%nat (Some (mkMDNode 0 "original instruction"))
                (mkMDNode 1 ("mov" ++ newline))
                2%nat (Some (mkMDNode 0 "original instruction"))
                (mkMDNode 2 ("add" ++ newline))) as [_ Hpi].
    + simpl. tauto.
    + simpl. tauto.
    + lia.
    + intros k Inst Hk Hlk. assert (k = 2%nat) as -> by lia.
      injection Hlk as <-. discriminate.
    + discriminate.
  - eexists. eexists. split; [vm_compute; reflexivity|].
    split; vm_compute; [reflexivity|discriminate].
Qed.

Lemma tags_between_markers_witness :
  exists s log,
    translateBatch (C := Sample.collaborators) 0 16 0%N 0x1000 8
      Sample.twoOps Sample.emptyEnv = Done (s, log)
    /\ forall oi1 pi1 oi2 pi2,
         In (Tagged 1 oi1 pi1) log -> In (Tagged 2 oi2 pi2) log -> oi1 = oi2.
Proof.
  destruct (translateBatch (C := Sample.collaborators) 0 16 0%N 0x1000 8
              Sample.twoOps Sample.emptyEnv) as [[s log]| |] eqn:Hrun;
    [|vm_compute in Hrun; discriminate..].
  exists s, log. split; [reflexivity|]. intros oi1 pi1 oi2 pi2 H1 H2.
  refine (proj1 (proj1 (tags_between_markers _ _ _ _ _ _ _ _ _ Hrun)
                   1%nat oi1 pi1 2%nat oi2 pi2 H1 H2 _ _)); [lia|].
  intros k Inst Hk Hlk. assert (k = 2%nat) as -> by lia.
  injection Hlk as <-. discriminate.
Defined.

End TranslateFacts.

(** ** Serialization *)

Module SerializeFacts.
Import Serialize.

(** C8, as stated, fails: with a debug helper that holds no copy and an
    output path no stream can be opened on, [serialize] returns like a
    successful call and leaves the file system as it was. *)
Lemma open_failure_not_reported :
  "/proc/out.ll" ∈ unwritable Sample.readOnlyDisk
  /\ serialize (H := Sample.debugHelper) "/proc/out.ll" tt Sample.readOnlyDisk
       = (Returned, tt, Sample.readOnlyDisk)
  /\ ~ reportsOpenFailure (H := Sample.debugHelper) "/proc/out.ll" tt
         Sample.readOnlyDisk.
Proof.
  split; [by apply (bool_decide_unpack _); vm_compute|].
  split; [reflexivity|].
  intros Hrep. apply Hrep; [reflexivity| |reflexivity].
  by apply (bool_decide_unpack _); vm_compute.
Qed.

(** C8, as amended: [serialize] asks the debug helper first; when the
    helper holds a copy it opens and writes nothing; otherwise it opens the
    output path and, when that succeeds, the file holds the textual form of
    the module and nothing else changes; when the open fails nothing is
    written.  In every case the call returns normally, with nothing for the
    caller to tell a failed open from a successful one. *)
Theorem serialize_writes_unless_copied {D} `{DebugHelper D}
    (OutputPath : string) (Debug : D) (fs : FileSystem) :
  let copied := fst (fst (copySource Debug fs)) in
  let Debug' := snd (fst (copySource Debug fs)) in
  let fs' := snd (copySource Debug fs) in
  serialize OutputPath Debug fs =
    (Returned, Debug',
     if copied then fs'
     else if bool_decide (OutputPath ∈ unwritable fs') then fs'
     else mkFileSystem (<[OutputPath := print Debug' false]> (files fs'))
                       (unwritable fs')).
Proof.
  unfold serialize. destruct (copySource Debug fs) as [[copied Debug'] fs'].
  simpl. destruct copied; simpl; [reflexivity|].
  unfold ofstream_open. destruct (bool_decide (OutputPath ∈ unwritable fs'));
    simpl; [reflexivity|].
  unfold ofstream_write. simpl. by rewrite alter_insert_eq.
Qed.

End SerializeFacts.

(** ** More on helper stubbing *)

Module StubMore.
Import Stub StubShape StubFacts.

Lemma stubOf_ReturnType uninit Name F :
  ReturnType (stubOf uninit Name F) = ReturnType F.
Proof. unfold stubOf. repeat case_decide; reflexivity. Qed.

Lemma stubOf_again uninit Name F :
  stubOf uninit Name (stubOf uninit Name F) = stubOf uninit Name F.
Proof. unfold stubOf. repeat case_decide; reflexivity. Qed.

Lemma stubOf_outside uninit Name F :
  Name ∉ stubbedNames -> stubOf uninit Name F = F.
Proof.
  unfold stubbedNames. rewrite !elem_of_app, !elem_of_cons. intros Hout.
  unfold stubOf. repeat case_decide; try reflexivity; exfalso; apply Hout; auto.
Qed.

Lemma trap_loop_nothing_to_do names (M : LLVMModule) :
  (forall Name, Name ∈ names -> M !! Name = None) ->
  forEach stubWithAbort names M = Done M.
Proof.
  induction names as [|a rest IH]; intros Hnone; [reflexivity|].
  simpl. rewrite stubWithAbort_None by (apply Hnone; left).
  rewrite bind_Done. apply IH. intros Name Hin. apply Hnone. by right.
Qed.

(** The loop over [NoOpFunctionNames] keeps the other names. *)
Lemma neutralize_loop_lookup uninit (M M1 : LLVMModule) :
  forEach (stubWithRet uninit 0) NoOpFunctionNames M = Done M1 ->
  forall k, M1 !! k =
    if decide (k ∈ NoOpFunctionNames)
    then neutralized (uninit k) 0 <$> M !! k else M !! k.
Proof.
  intros H1. apply (forEach_rewritesOnly _ _ _ (stubWithRet_rewritesOnly uninit 0)
                      NoOpFunctionNames_NoDup _ _ H1).
Qed.

Lemma neutralize_loop_presence uninit (M M1 : LLVMModule) k :
  forEach (stubWithRet uninit 0) NoOpFunctionNames M = Done M1 ->
  M1 !! k = None <-> M !! k = None.
Proof.
  intros H1. rewrite (neutralize_loop_lookup _ _ _ H1 k).
  case_decide; [|done]. apply fmap_None.
Qed.

Lemma stubHelpers_completes uninit (M : LLVMModule) :
  assertionsHold M -> exists M', stubHelpers uninit M = Done M'.
Proof.
  intros ([Hab|Hnone] & Hc & Hf); [by apply stubHelpers_total|].
  destruct (M !! "abort") as [Fa|] eqn:Ha.
  { apply stubHelpers_total; [by rewrite Ha|done..]. }
  unfold stubHelpers.
  destruct (neutralize_loop_total uninit NoOpFunctionNames M) as [M1 H1].
  pose proof (neutralize_loop_lookup _ _ _ H1) as L1.
  rewrite H1, bind_Done, trap_loop_nothing_to_do, bind_Done.
  2:{ intros Name Hin. apply (neutralize_loop_presence _ _ _ Name H1).
      by apply Hnone. }
  assert (Hsame : forall k, k = "page_check_range" \/ k = "page_get_flags" ->
                            M1 !! k = M !! k).
  { intros k Hk. rewrite L1, decide_False; [done|]. intros Hx.
    destruct (NoOp_name_elsewhere _ Hx) as (_ & ? & ? & _). tauto. }
  assert (exists M3, stubWithRet uninit 1 "page_check_range" M1 = Done M3
                     /\ M3 !! "page_get_flags" = M !! "page_get_flags")
    as (M3 & H3 & L3).
  { destruct (M1 !! "page_check_range") as [F|] eqn:HF.
    - rewrite (stubWithRet_Some _ _ _ _ _ HF).
      rewrite Hsame in HF by auto. apply Hc in HF.
      destruct (ReturnType F); [done|..]; simpl;
        (eexists; split; [reflexivity|]);
        rewrite lookup_insert_ne by done; apply Hsame; auto.
    - rewrite (stubWithRet_None _ _ _ _ HF). eexists; split; [reflexivity|].
      apply Hsame; auto. }
  rewrite H3, bind_Done. rewrite <- L3 in Hf.
  destruct (M3 !! "page_get_flags") as [F|] eqn:HF.
  - rewrite (stubWithRet_Some _ _ _ _ _ HF). specialize (Hf F eq_refl).
    destruct (ReturnType F); [done|..]; simpl; eauto.
  - rewrite (stubWithRet_None _ _ _ _ HF). eauto.
Qed.

Lemma stubHelpers_Done_assertions uninit (M M' : LLVMModule) :
  stubHelpers uninit M = Done M' -> assertionsHold M.
Proof.
  intros Hrun.
  pose proof (stubHelpers_phases _ _ _ Hrun) as (M1 & M2 & M3 & H1 & H2 & H3 & H4).
  pose proof (neutralize_loop_lookup _ _ _ H1) as L1.
  pose proof (forEach_rewritesOnly _ _ _ stubWithAbort_rewritesOnly
                AbortFunctionNames_NoDup _ _ H2) as L2.
  pose proof (stubWithRet_rewritesOnly _ _ _ _ _ H3) as L3.
  split; [|split].
  - destruct (M !! "abort") as [Fa|] eqn:Ha; [by left|]. right.
    intros Name Hin. destruct (M !! Name) as [F|] eqn:HF; [|done]. exfalso.
    rewrite (stubHelpers_abort_missing uninit M Name) in Hrun;
      [discriminate|done|by rewrite HF|done].
  - intros F HF HT.
    assert (HM2 : M2 !! "page_check_range" = Some F).
    { rewrite L2, decide_False, L1, decide_False; [done| |].
      - intros Hx. by destruct (NoOp_name_elsewhere _ Hx) as (_ & ? & _).
      - intros Hx. by destruct (Abort_name_elsewhere _ Hx) as (? & _). }
    rewrite (stubWithRet_Some _ _ _ _ _ HM2), HT in H3. discriminate.
  - intros F HF HT.
    assert (HM3 : M3 !! "page_get_flags" = Some F).
    { rewrite L3, decide_False, L2, decide_False, L1, decide_False; [done|..].
      - intros Hx. by destruct (NoOp_name_elsewhere _ Hx) as (_ & _ & ? & _).
      - intros Hx. by destruct (Abort_name_elsewhere _ Hx) as (_ & ? & _).
      - done. }
    rewrite (stubWithRet_Some _ _ _ _ _ HM3), HT in H4. discriminate.
Qed.

Lemma stubHelpers_never_undefined uninit (M : LLVMModule) what :
  stubHelpers uninit M ≠ Undefined what.
Proof.
  unfold stubHelpers.
  destruct (neutralize_loop_total uninit NoOpFunctionNames M) as [M1 ->].
  rewrite bind_Done.
  assert (Hloop : forall names (M0 : LLVMModule) w,
             forEach stubWithAbort names M0 ≠ Undefined w).
  { induction names as [|a rest IH]; intros M0 w; [discriminate|]. simpl.
    destruct (M0 !! a) as [F|] eqn:Ha.
    - rewrite (stubWithAbort_Some _ _ _ Ha).
      destruct (bool_decide _); [rewrite bind_Done; apply IH|discriminate].
    - rewrite (stubWithAbort_None _ _ Ha), bind_Done. apply IH. }
  assert (Hret : forall R Name (M0 : LLVMModule) w,
             stubWithRet uninit R Name M0 ≠ Undefined w).
  { intros R Name M0 w. destruct (M0 !! Name) as [F|] eqn:Ha.
    - rewrite (stubWithRet_Some _ _ _ _ _ Ha). by destruct (_ && _).
    - by rewrite (stubWithRet_None _ _ _ _ Ha). }
  destruct (forEach stubWithAbort AbortFunctionNames M1) as [M2| |] eqn:H2;
    [|discriminate|by apply Hloop in H2].
  rewrite bind_Done.
  destruct (stubWithRet uninit 1 "page_check_range" M2) as [M3| |] eqn:H3;
    [|discriminate|by apply Hret in H3].
  rewrite bind_Done. apply Hret.
Qed.


(** X2: the stubbing neither adds nor removes a function, leaves every
    return type as declared, and returns the functions it has no name for,
    [abort] among them, as they were. *)
Theorem stubbing_keeps_names_and_types (uninit : string -> option Value)
    (M M' : LLVMModule) :
  stubHelpers uninit M = Done M' ->
  dom M' = dom M
  /\ (forall k F', M' !! k = Some F' ->
        exists F, M !! k = Some F /\ ReturnType F' = ReturnType F)
  /\ (forall k, k ∉ stubbedNames -> M' !! k = M !! k)
  /\ M' !! "abort" = M !! "abort".
Proof.
  intros Hrun. pose proof (stubHelpers_lookup _ _ _ Hrun) as Hlk.
  assert (Hout : forall k, k ∉ stubbedNames -> M' !! k = M !! k).
  { intros k Hk. rewrite Hlk. destruct (M !! k) as [F|]; [|done]. simpl.
    by rewrite stubOf_outside. }
  split; [|split; [|split]].
  - apply set_eq. intros k. rewrite !elem_of_dom, Hlk. apply fmap_is_Some.
  - intros k F' HF'. rewrite Hlk in HF'.
    destruct (M !! k) as [F|]; [|discriminate]. injection HF' as <-.
    exists F. split; [done|apply stubOf_ReturnType].
  - exact Hout.
  - apply Hout. by apply (bool_decide_unpack _); vm_compute.
Qed.

Lemma stubbing_keeps_names_and_types_witness :
  exists M' : LLVMModule,
    stubHelpers Sample.nullptr Sample.helpers = Done M'
    /\ dom M' = dom Sample.helpers
    /\ M' !! "helper_add" = Some (Sample.extern (IntegerTy 64)).
Proof.
  destruct (stubHelpers Sample.nullptr Sample.helpers) as [M'| |] eqn:Hrun;
    [|vm_compute in Hrun; discriminate..].
  exists M'. split; [reflexivity|].
  destruct (stubbing_keeps_names_and_types _ _ _ Hrun) as (Hdom & _ & Hout & _).
  split; [exact Hdom|]. rewrite Hout; [reflexivity|].
  by apply (bool_decide_unpack _); vm_compute.
Defined.



(** X4: a function the stubbing rewrote is one unnamed block that ends in
    a terminator, [ret] or [unreachable], has no terminator before it, and
    whose instructions carry no metadata. *)
Theorem stubs_are_terminated_blocks (uninit : string -> option Value)
    (M M' : LLVMModule) (Name : string) (F' : LLVMFunction) :
  stubHelpers uninit M = Done M' -> Name ∈ stubbedNames ->
  M' !! Name = Some F' ->
  exists B, BasicBlocks F' = [B] /\ bb_name B = "" /\ terminatedBlock B
            /\ Forall (fun Inst => hasMetadata Inst = false) (bb_insts B).
Proof.
  intros Hrun Hin HF'. rewrite (stubHelpers_lookup _ _ _ Hrun) in HF'.
  destruct (M !! Name) as [F|]; [|discriminate]. injection HF' as <-.
  assert (Hcases : (exists u R, stubOf uninit Name F = neutralized u R F)
                   \/ stubOf uninit Name F = trapped F).
  { unfold stubOf. repeat case_decide; eauto.
    exfalso. unfold stubbedNames in Hin.
    rewrite !elem_of_app, !elem_of_cons in Hin.
    destruct Hin as [?|[?|[?|[?|Hin]]]]; try done.
    by apply not_elem_of_nil in Hin. }
  destruct Hcases as [(u & R & ->) | ->]; eexists; (split; [reflexivity|]);
    (split; [reflexivity|]); split.
  - exists [], (newInst (Ret (resultValue u R (ReturnType F)))).
    repeat split; constructor.
  - repeat constructor.
  - exists [newInst (Call "abort" [])], (newInst Unreachable).
    repeat split; repeat constructor.
  - repeat constructor.
Qed.

Lemma stubs_are_terminated_blocks_witness :
  exists (M' : LLVMModule) F' B,
    stubHelpers Sample.nullptr Sample.helpers = Done M'
    /\ M' !! "cpu_abort" = Some F'
    /\ BasicBlocks F' = [B] /\ terminatedBlock B.
Proof.
  destruct (stubHelpers Sample.nullptr Sample.helpers) as [M'| |] eqn:Hrun;
    [|vm_compute in Hrun; discriminate..].
  destruct (M' !! "cpu_abort") as [F'|] eqn:HF';
    [|vm_compute in Hrun; injection Hrun as <-; vm_compute in HF'; discriminate].
  destruct (stubs_are_terminated_blocks Sample.nullptr Sample.helpers M'
              "cpu_abort" F' Hrun) as (B & HB & _ & Hterm & _);
    [by apply (bool_decide_unpack _); vm_compute|exact HF'|].
  exists M', F', B. auto.
Defined.



End StubMore.

(** ** More on the tagging walk *)

Module TaggingMore.
Import TaggingFacts.

Lemma tagBackward_barrier oi pi fromEnd Inst before :
  hasMetadata Inst = true ->
  tagBackward oi pi (fromEnd ++ Inst :: before)
    = (tagBackward oi pi fromEnd ++ Inst :: before)%list.
Proof.
  intros HI. induction fromEnd as [|J rest IH]; simpl.
  - by rewrite HI.
  - destruct (hasMetadata J); [reflexivity|]. by rewrite IH.
Qed.

Lemma tagBackward_fresh oi pi fresh rest :
  Forall (fun Inst => hasMetadata Inst = false) fresh ->
  tagBackward oi pi (fresh ++ rest)
    = (map (stamp oi pi) fresh ++ tagBackward oi pi rest)%list.
Proof.
  induction 1 as [|J fresh HJ _ IH]; [reflexivity|].
  simpl. by rewrite HJ, IH.
Qed.

Lemma tagBackward_head oi pi fromEnd :
  match tagBackward oi pi fromEnd with
  | [] => fromEnd = []
  | Inst :: _ => hasMetadata Inst = true
  end.
Proof.
  destruct fromEnd as [|J rest]; [reflexivity|]. simpl.
  destruct (hasMetadata J) eqn:HJ; [done|apply hasMetadata_stamp].
Qed.

(** X6: the walk over a block only adds metadata to instructions that had
    none.  It keeps the number of instructions and their opcodes, returns
    every annotated instruction as it was, and what it returns in place of
    an unannotated one is that instruction, untouched or stamped with the
    pair. *)
Theorem walk_only_annotates (oi : option MDNode) (pi : MDNode)
    (insts : list Instruction) :
  length (tagBlock oi pi insts) = length insts
  /\ map opcode (tagBlock oi pi insts) = map opcode insts
  /\ (forall i Inst, insts !! i = Some Inst ->
        tagBlock oi pi insts !! i = Some Inst
        \/ (hasMetadata Inst = false
            /\ tagBlock oi pi insts !! i = Some (stamp oi pi Inst)))
  /\ (forall i Inst, insts !! i = Some Inst -> hasMetadata Inst = true ->
        tagBlock oi pi insts !! i = Some Inst).
Proof.
  destruct (tagBlock_split oi pi insts)
    as (annotated & fresh & -> & Hfresh & _ & ->).
  assert (Hpoint : forall i Inst, (annotated ++ fresh)%list !! i = Some Inst ->
            (annotated ++ map (stamp oi pi) fresh)%list !! i = Some Inst
            \/ (hasMetadata Inst = false
                /\ (annotated ++ map (stamp oi pi) fresh)%list !! i
                     = Some (stamp oi pi Inst))).
  { intros i Inst Hi. apply lookup_app_Some in Hi as [Hi|[Hge Hi]].
    - left. by apply lookup_app_l_Some.
    - right. split.
      + rewrite Forall_forall in Hfresh. apply Hfresh.
        by eapply list_elem_of_lookup_2.
      + rewrite lookup_app_r by done.
        change (map (stamp oi pi) fresh) with (stamp oi pi <$> fresh).
        by rewrite list_lookup_fmap, Hi. }
  split; [|split; [|split]].
  - by rewrite !length_app, length_map.
  - rewrite !map_app, map_map. reflexivity.
  - exact Hpoint.
  - intros i Inst Hi HI. destruct (Hpoint i Inst Hi) as [?|[Hno _]]; [done|].
    congruence.
Qed.

(** X7: an annotated instruction is a barrier.  The walk over a block
    handles what follows the annotated instruction and returns everything
    up to it as it was, unannotated instructions included. *)
Theorem annotated_instruction_is_a_barrier (oi : option MDNode) (pi : MDNode)
    (before : list Instruction) (Inst : Instruction) (after : list Instruction) :
  hasMetadata Inst = true ->
  tagBlock oi pi (before ++ Inst :: after)
    = (before ++ Inst :: tagBlock oi pi after)%list.
Proof.
  intros HI. unfold tagBlock.
  rewrite rev_app_distr. simpl. rewrite <- app_assoc. simpl.
  rewrite tagBackward_barrier by done.
  rewrite rev_app_distr. simpl. rewrite rev_involutive, <- app_assoc.
  reflexivity.
Qed.

Lemma annotated_instruction_is_a_barrier_witness :
  hasMetadata Sample.annotated = true
  /\ tagBlock None (mkMDNode 1 "mov")
       ([newInst (OtherInst 1)] ++ Sample.annotated :: [newInst (OtherInst 2)])
     = ([newInst (OtherInst 1)] ++ Sample.annotated
          :: tagBlock None (mkMDNode 1 "mov") [newInst (OtherInst 2)])%list.
Proof.
  split; [reflexivity|].
  apply annotated_instruction_is_a_barrier. reflexivity.
Defined.

(** X8: instructions appended after a walk are the ones the next walk
    stamps.  When unannotated instructions are added at the end of a block
    a walk went over, a walk with a new pair stamps exactly those and
    returns the block before them as the first walk left it. *)
Theorem next_walk_stamps_what_was_appended (oi1 oi2 : option MDNode)
    (pi1 pi2 : MDNode) (insts appended : list Instruction) :
  Forall (fun Inst => hasMetadata Inst = false) appended ->
  tagBlock oi2 pi2 (tagBlock oi1 pi1 insts ++ appended)
    = (tagBlock oi1 pi1 insts ++ map (stamp oi2 pi2) appended)%list.
Proof.
  intros Hnew. unfold tagBlock at 1.
  rewrite rev_app_distr, tagBackward_fresh.
  2:{ apply Forall_forall. intros J HJ. rewrite Forall_forall in Hnew.
      apply Hnew. apply list_elem_of_In. apply list_elem_of_In in HJ.
      by apply in_rev. }
  unfold tagBlock at 1. rewrite rev_involutive, tagBackward_again.
  rewrite rev_app_distr, map_rev, rev_involutive. reflexivity.
Qed.

Lemma next_walk_stamps_what_was_appended_witness :
  Forall (fun Inst => hasMetadata Inst = false) [newInst (Br 4104%N)]
  /\ tagBlock None (mkMDNode 2 "call")
       (tagBlock None (mkMDNode 1 "mov") [newInst (OtherInst 0)]
          ++ [newInst (Br 4104%N)])
     = (tagBlock None (mkMDNode 1 "mov") [newInst (OtherInst 0)]
          ++ map (stamp None (mkMDNode 2 "call")) [newInst (Br 4104%N)])%list.
Proof.
  assert (H : Forall (fun Inst => hasMetadata Inst = false) [newInst (Br 4104%N)])
    by (repeat constructor).
  split; [exact H|]. by apply next_walk_stamps_what_was_appended.
Defined.

(** X9: when the walk over [Blocks] is done, every listed block is empty
    or ends with an annotated instruction; the walk binds no new block and
    unbinds none. *)
Theorem walk_closes_listed_blocks (oi : option MDNode) (pi : MDNode)
    (Blocks : list BlockId) (st : gmap BlockId (list Instruction)) :
  dom (tagBlocks oi pi Blocks st) = dom st
  /\ forall Block insts,
       Block ∈ Blocks -> tagBlocks oi pi Blocks st !! Block = Some insts ->
       insts = [] \/ exists Inst, last insts = Some Inst
                                  /\ hasMetadata Inst = true.
Proof.
  split.
  - apply set_eq. intros Block. rewrite !elem_of_dom, tagBlocks_lookup.
    case_decide; [apply fmap_is_Some|done].
  - intros Block insts Hin Hlk. rewrite tagBlocks_lookup, decide_True in Hlk by done.
    destruct (st !! Block) as [old|]; [|discriminate]. injection Hlk as <-.
    unfold tagBlock. pose proof (tagBackward_head oi pi (rev old)) as Hhead.
    destruct (tagBackward oi pi (rev old)) as [|Inst rest]; [by left|].
    right. exists Inst. split; [|done]. simpl. apply last_snoc.
Qed.

End TaggingMore.

(** ** More on the loop over the pseudo-ops of a batch *)

Module TranslateMore.
Import Translate TranslateShape TranslateFacts TaggingFacts.

Section Loop.
Context {X : Type} {C : Collaborators X}.
Variable InstructionList : PTCInstructionList.
Variable NextPC : Z.

Local Abbreviation n := (length InstructionList).
Local Abbreviation marker := PTC_INSTRUCTION_op_debug_insn_start.
Local Abbreviation loop := (instructionLoop InstructionList NextPC).
Local Abbreviation body := (loopBody InstructionList NextPC).
Local Abbreviation dispatched := (Translate.dispatched InstructionList NextPC).
Local Abbreviation nodeOf := (Translate.nodeOf InstructionList NextPC).

Ltac by_opcode Inst s :=
  unfold dispatch;
  destruct (opc Inst) eqn:?;
  [ | destruct (newInstruction Inst false (env s)) as [[? ?] ?] eqn:?
    | destruct (_ =? _)%nat eqn:?;
      [destruct (getBlockAt NextPC (translateCall Inst (env s))) as [? ?] eqn:?|]
    | ]; simpl.

Lemma loop_stopped rest j (s : LoopState X) :
  StopTranslation s = true -> loop j rest s = (s, []).
Proof. intros Hs. destruct rest; simpl; [reflexivity|]. by rewrite Hs. Qed.

Lemma dispatch_taggedIndices j Inst (s : LoopState X) :
  taggedIndices (snd (dispatch NextPC n j Inst s)) = [].
Proof. by_opcode Inst s; reflexivity. Qed.

Lemma dispatch_handler j Inst (s : LoopState X) a :
  In a (snd (dispatch NextPC n j Inst s)) ->
  actionIndex a = j
  /\ match a with
     | CalledNewInstruction _ IsFirst => IsFirst = false /\ opc Inst = marker
     | CalledTranslateCall _ | EmittedBr _ _ _ _ =>
       opc Inst = PTC_INSTRUCTION_op_call
     | CalledTranslate _ => exists m, opc Inst = PTC_INSTRUCTION_op_other m
     | Tagged _ _ _ => False
     end.
Proof.
  by_opcode Inst s; intros Hin;
    repeat (destruct Hin as [<-|Hin]; [simpl; eauto|]); destruct Hin.
Qed.

Lemma dispatch_keeps_Stop j Inst (s : LoopState X) :
  opc Inst <> marker ->
  StopTranslation (fst (dispatch NextPC n j Inst s)) = StopTranslation s.
Proof. intros Hop. by_opcode Inst s; congruence. Qed.

Lemma dispatch_marker_log j Inst (s : LoopState X) :
  opc Inst = marker ->
  snd (dispatch NextPC n j Inst s) = [CalledNewInstruction j false].
Proof. intros Hop. by_opcode Inst s; congruence. Qed.

Lemma body_taggedIndices j Inst (s : LoopState X) :
  taggedIndices (snd (body j Inst s)) = [j].
Proof.
  rewrite loopBody_eq. simpl. unfold taggedIndices. rewrite omap_app.
  fold (taggedIndices (snd (dispatched j Inst s))).
  unfold Translate.dispatched. by rewrite dispatch_taggedIndices.
Qed.

Lemma body_handler j Inst (s : LoopState X) a :
  In a (snd (body j Inst s)) ->
  actionIndex a = j
  /\ match a with
     | CalledNewInstruction _ IsFirst => IsFirst = false /\ opc Inst = marker
     | CalledTranslateCall _ | EmittedBr _ _ _ _ =>
       opc Inst = PTC_INSTRUCTION_op_call
     | CalledTranslate _ => exists m, opc Inst = PTC_INSTRUCTION_op_other m
     | Tagged _ _ _ => True
     end.
Proof.
  rewrite loopBody_eq. simpl. rewrite in_app_iff. intros [Hin|[<-|[]]].
  - apply dispatch_handler in Hin as [? Hm]. split; [done|]. by destruct a.
  - done.
Qed.

(** Every entry of the log of the loop was written by one turn, run from a
    state that did not ask to stop, for a pseudo-op of the list. *)
Lemma loop_action_from_turn rest : forall j (s : LoopState X) a,
  drop j InstructionList = rest -> In a (snd (loop j rest s)) ->
  exists k Inst sk,
    (j <= k)%nat /\ InstructionList !! k = Some Inst
    /\ StopTranslation sk = false /\ In a (snd (body k Inst sk)).
Proof.
  induction rest as [|Inst rest IH]; intros j s a Hdrop Hin.
  - destruct Hin.
  - apply drop_cons_inv in Hdrop as (Hj & Hdrop & _).
    rewrite instructionLoop_cons in Hin.
    destruct (StopTranslation s) eqn:Hs; [destruct Hin|]. simpl in Hin.
    apply in_app_iff in Hin as [Hin|Hin].
    + exists j, Inst, s. auto.
    + destruct (IH _ _ _ Hdrop Hin) as (k & Inst' & sk & ? & ? & ? & ?).
      exists k, Inst', sk. repeat split; try done. lia.
Qed.

Lemma loop_taggedIndices rest : forall j (s : LoopState X),
  exists k,
    taggedIndices (snd (loop j rest s)) = seq j k
    /\ (k <= length rest)%nat
    /\ (StopTranslation (fst (loop j rest s)) = false -> k = length rest).
Proof.
  induction rest as [|Inst rest IH]; intros j s.
  - exists 0%nat. auto.
  - rewrite instructionLoop_cons. destruct (StopTranslation s) eqn:Hs.
    + exists 0%nat. simpl. repeat split; [lia|congruence].
    + destruct (IH (S j) (fst (body j Inst s))) as (k & Hk & Hle & Hall).
      exists (S k). simpl. unfold taggedIndices. rewrite omap_app.
      fold (taggedIndices (snd (body j Inst s))).
      fold (taggedIndices (snd (loop (S j) rest (fst (body j Inst s))))).
      rewrite body_taggedIndices, Hk. repeat split; [lia|].
      intros Hstop. by rewrite Hall.
Qed.

Lemma body_Stop j Inst (s : LoopState X) :
  StopTranslation s = false ->
  StopTranslation (fst (body j Inst s)) = true ->
  opc Inst = marker
  /\ exists oi pi, snd (body j Inst s) = [CalledNewInstruction j false; Tagged j oi pi].
Proof.
  intros Hs. rewrite loopBody_eq. simpl. intros Hstop.
  assert (opc Inst = marker \/ opc Inst <> marker) as [Hop|Hop]
    by (destruct (opc Inst); auto; right; discriminate).
  - split; [done|]. unfold Translate.dispatched.
    rewrite (dispatch_marker_log _ _ _ Hop). simpl. eauto.
  - unfold Translate.dispatched in Hstop.
    rewrite dispatch_keeps_Stop in Hstop by done. simpl in Hstop. congruence.
Qed.

Lemma loop_ends_on_marker rest : forall j (s : LoopState X),
  drop j InstructionList = rest -> StopTranslation s = false ->
  StopTranslation (fst (loop j rest s)) = true ->
  exists pre k Inst oi pi,
    snd (loop j rest s)
      = (pre ++ [CalledNewInstruction k false; Tagged k oi pi])%list
    /\ InstructionList !! k = Some Inst /\ opc Inst = marker.
Proof.
  induction rest as [|Inst rest IH]; intros j s Hdrop Hs Hstop.
  - simpl in Hstop. congruence.
  - apply drop_cons_inv in Hdrop as (Hj & Hdrop & _).
    rewrite instructionLoop_cons in Hstop |- *. rewrite Hs in Hstop |- *.
    simpl in Hstop |- *.
    destruct (StopTranslation (fst (body j Inst s))) eqn:Hb.
    + rewrite loop_stopped by done. simpl.
      destruct (body_Stop _ _ _ Hs Hb) as (Hop & oi & pi & ->).
      exists [], j, Inst, oi, pi. auto.
    + destruct (IH _ _ Hdrop Hb Hstop) as (pre & k & Inst' & oi & pi & -> & ? & ?).
      exists (snd (body j Inst s) ++ pre)%list, k, Inst', oi, pi.
      by rewrite <- app_assoc.
Qed.

End Loop.

Section Batch.
Context {X : Type} {C : Collaborators X}.

(** X10: each pseudo-op goes to the handler of its opcode and to no other.
    In a batch that was translated, the first pseudo-op is the only one
    handed to the boundary handler as the first; after it the boundary
    handler gets instruction-start markers only, the call handler calls
    only and the generic handler the other opcodes only, so a discarded
    pseudo-op reaches no handler. *)
Theorem handlers_match_opcodes CodePointer CodeEnd Entry VirtualAddress
    ConsumedSize InstructionList (e : Env X) s log :
  translateBatch CodePointer CodeEnd Entry VirtualAddress ConsumedSize
    InstructionList e = Done (s, log) ->
  forall a, In a log ->
    exists Inst, InstructionList !! actionIndex a = Some Inst
    /\ match a with
       | CalledNewInstruction j IsFirst =>
         (j = 0%nat /\ IsFirst = true)
         \/ ((1 <= j)%nat /\ IsFirst = false
             /\ opc Inst = PTC_INSTRUCTION_op_debug_insn_start)
       | CalledTranslateCall j | EmittedBr j _ _ _ =>
         (1 <= j)%nat /\ opc Inst = PTC_INSTRUCTION_op_call
       | CalledTranslate j =>
         (1 <= j)%nat /\ exists m, opc Inst = PTC_INSTRUCTION_op_other m
       | Tagged j _ _ => (1 <= j)%nat
       end.
Proof.
  intros Hrun a Hin.
  apply translateBatch_Done in Hrun as (First & rest & s0 & HIL & -> & _).
  assert (Hdrop : drop 1 InstructionList = rest) by (by rewrite HIL).
  destruct Hin as [<-|Hin].
  - exists First. rewrite HIL. split; [reflexivity|]. by left.
  - destruct (loop_action_from_turn _ _ _ _ _ _ Hdrop Hin)
      as (k & Inst & sk & Hk & Hlk & _ & Hturn).
    apply body_handler in Hturn as [Hidx Hm]. exists Inst.
    rewrite Hidx. split; [done|].
    destruct a; simpl in Hidx; subst; tauto.
Qed.

(** X11: every pseudo-op after the first gets one tagging walk, discarded
    ones included, in the order of the list, and the first gets none: the
    indices the walk ran for are [1, 2, ...], up to the last index when the
    batch did not end on a request to stop. *)
Theorem one_walk_per_pseudo_op CodePointer CodeEnd Entry VirtualAddress
    ConsumedSize InstructionList (e : Env X) s log :
  translateBatch CodePointer CodeEnd Entry VirtualAddress ConsumedSize
    InstructionList e = Done (s, log) ->
  exists k,
    taggedIndices log = seq 1 k
    /\ (k <= length InstructionList - 1)%nat
    /\ (StopTranslation s = false -> k = (length InstructionList - 1)%nat).
Proof.
  intros Hrun.
  apply translateBatch_Done in Hrun as (First & rest & s0 & HIL & -> & Hstop).
  destruct (loop_taggedIndices InstructionList
              (wrap64 (wrap64 VirtualAddress + wrap64 ConsumedSize)) rest 1 s0)
    as (k & Hk & Hle & Hall).
  exists k. change (taggedIndices (CalledNewInstruction 0 true :: ?l))
    with (taggedIndices l).
  assert (Hlen : (length InstructionList - 1 = length rest)%nat)
    by (rewrite HIL; simpl; lia).
  rewrite Hlen. repeat split; [done..|]. intros Hs. apply Hall. congruence.
Qed.

(** X12: a request to stop ends the batch at once.  When a batch that was
    translated ends with [StopTranslation] set, either the boundary handler
    of the first pseudo-op asked and nothing else was done, or the last
    things done are the call of the boundary handler for a marker and the
    walk of that marker. *)
Theorem stop_ends_the_batch CodePointer CodeEnd Entry VirtualAddress
    ConsumedSize InstructionList (e : Env X) s log :
  translateBatch CodePointer CodeEnd Entry VirtualAddress ConsumedSize
    InstructionList e = Done (s, log) ->
  StopTranslation s = true ->
  log = [CalledNewInstruction 0 true]
  \/ exists pre k Inst oi pi,
       log = (pre ++ [CalledNewInstruction k false; Tagged k oi pi])%list
       /\ InstructionList !! k = Some Inst
       /\ opc Inst = PTC_INSTRUCTION_op_debug_insn_start.
Proof.
  intros Hrun Hs.
  apply translateBatch_Done in Hrun as (First & rest & s0 & HIL & -> & Hstop).
  assert (Hdrop : drop 1 InstructionList = rest) by (by rewrite HIL).
  rewrite Hstop in Hs. destruct (StopTranslation s0) eqn:Hs0.
  - left. by rewrite loop_stopped.
  - right. destruct (loop_ends_on_marker _ _ _ _ _ Hdrop Hs0 Hs)
      as (pre & k & Inst & oi & pi & -> & ? & ?).
    by exists (CalledNewInstruction 0 true :: pre), k, Inst, oi, pi.
Qed.

(** X13: when the boundary handler of the first pseudo-op asks to stop, no
    other pseudo-op is dispatched, no node is created and no walk is run,
    and the batch still ends with [closeLastInstruction] on the next
    sequential address. *)
Theorem stop_at_first_pseudo_op CodePointer CodeEnd Entry VirtualAddress
    ConsumedSize First rest (e : Env X) MD e1 :
  CodePointer < CodeEnd ->
  newInstruction First true (batchStart Entry (First :: rest) e)
    = ((true, MD), e1) ->
  translateBatch CodePointer CodeEnd Entry VirtualAddress ConsumedSize
    (First :: rest) e
  = Done (mkLoopState true MD
            (closeLastInstruction
               (wrap64 (wrap64 VirtualAddress + wrap64 ConsumedSize)) e1),
          [CalledNewInstruction 0 true]).
Proof.
  intros Hlt Hfirst. unfold translateBatch, batchStart in *.
  rewrite (proj2 (Z.ltb_lt _ _) Hlt). simpl. rewrite Hfirst.
  by rewrite loop_stopped.
Qed.

(** The orchestrator's own steps leave the allocator of the context
    alone, except for the node it creates. *)
Lemma Insert_nextNode op (e : Env X) : nextNode (Insert op e) = nextNode e.
Proof. unfold Insert. by destruct (InsertPt e). Qed.

Lemma dispatch_nextNode NextPC n j Inst (s : LoopState X) :
  allocatorNeverRewinds C ->
  (nextNode (env s) <= nextNode (env (fst (dispatch NextPC n j Inst s))))%N.
Proof.
  intros (Hni & Hcall & Htr & Hget). unfold dispatch.
  destruct (opc Inst); simpl.
  - lia.
  - pose proof (Hni Inst false (env s)).
    by destruct (newInstruction Inst false (env s)) as [[? ?] ?].
  - pose proof (Hcall Inst (env s)).
    destruct (_ =? _)%nat; [|done].
    pose proof (Hget NextPC (translateCall Inst (env s))).
    destruct (getBlockAt NextPC (translateCall Inst (env s))) as [Dest e2].
    simpl in *. unfold CreateBr. rewrite Insert_nextNode. lia.
  - apply Htr.
Qed.

Lemma body_nextNode InstructionList NextPC j Inst (s : LoopState X) :
  allocatorNeverRewinds C ->
  (nextNode (env s) <= node_id (nodeOf InstructionList NextPC j Inst s))%N
  /\ nextNode (env (fst (loopBody InstructionList NextPC j Inst s)))
     = N.succ (node_id (nodeOf InstructionList NextPC j Inst s)).
Proof.
  intros HC. rewrite loopBody_eq. unfold nodeOf, dispatched. simpl. split; [|done].
  apply (dispatch_nextNode NextPC (length InstructionList) j Inst
           (mkLoopState (StopTranslation s) (MDOriginalInstr s)
              (withBlocksVector [GetInsertBlock (env s)] (env s))) HC).
Qed.

Lemma loop_nextNode InstructionList NextPC rest :
  allocatorNeverRewinds C -> forall j (s : LoopState X),
  (nextNode (env s)
   <= nextNode (env (fst (instructionLoop InstructionList NextPC j rest s))))%N
  /\ forall k oi pi,
       In (Tagged k oi pi)
          (snd (instructionLoop InstructionList NextPC j rest s)) ->
       (nextNode (env s) <= node_id pi
        < nextNode (env (fst (instructionLoop InstructionList NextPC j rest s))))%N.
Proof.
  intros HC. induction rest as [|Inst rest IH]; intros j s.
  - simpl. split; [lia|tauto].
  - rewrite instructionLoop_cons. destruct (StopTranslation s).
    { simpl. split; [lia|tauto]. }
    simpl. destruct (body_nextNode InstructionList NextPC j Inst s HC) as [Hlo Hhi].
    destruct (IH (S j) (fst (loopBody InstructionList NextPC j Inst s)))
      as [Hmono Hin].
    split; [lia|]. intros k oi pi Hk. apply in_app_iff in Hk as [Hk|Hk].
    + apply loopBody_Tagged in Hk as (_ & _ & ->). lia.
    + apply Hin in Hk. lia.
Qed.

Lemma loop_nodes_increase InstructionList NextPC rest :
  allocatorNeverRewinds C -> forall j (s : LoopState X) j1 oi1 pi1 j2 oi2 pi2,
  In (Tagged j1 oi1 pi1) (snd (instructionLoop InstructionList NextPC j rest s)) ->
  In (Tagged j2 oi2 pi2) (snd (instructionLoop InstructionList NextPC j rest s)) ->
  (j1 < j2)%nat -> (node_id pi1 < node_id pi2)%N.
Proof.
  intros HC. induction rest as [|Inst rest IH];
    intros j s j1 oi1 pi1 j2 oi2 pi2 H1 H2 Hlt.
  - destruct H1.
  - rewrite instructionLoop_cons in H1, H2.
    destruct (StopTranslation s); [destruct H1|]. simpl in H1, H2.
    destruct (body_nextNode InstructionList NextPC j Inst s HC) as [_ Hhi].
    apply in_app_iff in H1 as [H1|H1]; apply in_app_iff in H2 as [H2|H2].
    + apply loopBody_Tagged in H1 as (-> & _). apply loopBody_Tagged in H2 as (-> & _).
      lia.
    + apply loopBody_Tagged in H1 as (_ & _ & ->).
      apply (loop_nextNode InstructionList NextPC rest HC) in H2. lia.
    + apply loopBody_Tagged in H2 as (-> & _).
      apply loop_Tagged_index in H1. lia.
    + by apply (IH _ _ _ _ _ _ _ _ H1 H2).
Qed.

(** X14: with collaborators that create their nodes through the context,
    the pseudo-op nodes of a batch are pairwise distinct: the walk of a
    later pseudo-op never uses the node of an earlier one, even when the
    two pseudo-ops print the same line. *)
Theorem pseudo_op_nodes_are_distinct CodePointer CodeEnd Entry VirtualAddress
    ConsumedSize InstructionList (e : Env X) s log :
  allocatorNeverRewinds C ->
  translateBatch CodePointer CodeEnd Entry VirtualAddress ConsumedSize
    InstructionList e = Done (s, log) ->
  forall j1 oi1 pi1 j2 oi2 pi2,
    In (Tagged j1 oi1 pi1) log -> In (Tagged j2 oi2 pi2) log ->
    (j1 < j2)%nat -> (node_id pi1 < node_id pi2)%N /\ pi1 <> pi2.
Proof.
  intros HC Hrun.
  apply translateBatch_Done in Hrun as (First & rest & s0 & HIL & -> & _).
  intros j1 oi1 pi1 j2 oi2 pi2 [Hx|H1] [Hy|H2] Hlt; try discriminate.
  pose proof (loop_nodes_increase _ _ _ HC _ _ _ _ _ _ _ _ H1 H2 Hlt) as Hid.
  split; [done|]. intros ->. lia.
Qed.

(** X15: the fallthrough branch carries the metadata pair of the call.
    When the call is the last pseudo-op and the handlers leave the builder
    at the end of a block that is listed in [Blocks], the turn leaves that
    block with the branch as its last instruction, stamped with the current
    original-instruction node and the node of the call. *)
Theorem fallthrough_branch_is_stamped InstructionList NextPC j Inst
    (s : LoopState X) Dest e2 :
  opc Inst = PTC_INSTRUCTION_op_call -> S j = length InstructionList ->
  getBlockAt NextPC
    (translateCall Inst (withBlocksVector [GetInsertBlock (env s)] (env s)))
    = (Dest, e2) ->
  InsertPt e2 = None -> GetInsertBlock e2 ∈ Blocks e2 ->
  instsOf (env (fst (loopBody InstructionList NextPC j Inst s)))
          (GetInsertBlock e2)
  = (tagBlock (MDOriginalInstr s) (nodeOf InstructionList NextPC j Inst s)
       (instsOf e2 (GetInsertBlock e2))
     ++ [stamp (MDOriginalInstr s) (nodeOf InstructionList NextPC j Inst s)
           (newInst (Br Dest))])%list.
Proof.
  intros Hop Hlast Hget Hend Hin.
  rewrite loopBody_eq. unfold nodeOf, dispatched. simpl.
  rewrite (dispatch_call _ _ _ _ _ Hop) by lia. simpl.
  rewrite decide_True by done. simpl. rewrite Hget. simpl.
  unfold setMetadataForNewInstructions, instsOf at 1. simpl.
  unfold CreateBr, Insert. rewrite Hend. simpl.
  rewrite tagBlocks_lookup, decide_True by done.
  rewrite lookup_insert_eq. simpl. unfold GetInsertBlock.
  set (oi := MDOriginalInstr s).
  set (pi := mkMDNode _ _).
  unfold tagBlock. rewrite rev_app_distr. reflexivity.
Qed.

End Batch.

Lemma handlers_match_opcodes_witness :
  exists s log,
    translateBatch (C := Sample.collaborators) 0 16 0%N 0x1000 8
      Sample.endsOnCall Sample.emptyEnv = Done (s, log)
    /\ forall a, In a log ->
         exists Inst, Sample.endsOnCall !! actionIndex a = Some Inst.
Proof.
  destruct (translateBatch (C := Sample.collaborators) 0 16 0%N 0x1000 8
              Sample.endsOnCall Sample.emptyEnv) as [[s log]| |] eqn:Hrun;
    [|vm_compute in Hrun; discriminate..].
  exists s, log. split; [reflexivity|]. intros a Hin.
  destruct (handlers_match_opcodes _ _ _ _ _ _ _ _ _ Hrun a Hin) as (Inst & ? & _).
  eauto.
Defined.

Lemma one_walk_per_pseudo_op_witness :
  exists s log k,
    translateBatch (C := Sample.collaborators) 0 16 0%N 0x1000 8
      Sample.twoOps Sample.emptyEnv = Done (s, log)
    /\ taggedIndices log = seq 1 k.
Proof.
  destruct (translateBatch (C := Sample.collaborators) 0 16 0%N 0x1000 8
              Sample.twoOps Sample.emptyEnv) as [[s log]| |] eqn:Hrun;
    [|vm_compute in Hrun; discriminate..].
  destruct (one_walk_per_pseudo_op _ _ _ _ _ _ _ _ _ Hrun) as (k & Hk & _).
  exists s, log, k. auto.
Defined.

Lemma stop_ends_the_batch_witness :
  exists s log,
    translateBatch (C := Sample.collaborators) 0 16 0%N 0x1000 8
      Sample.stopsInside Sample.emptyEnv = Done (s, log)
    /\ StopTranslation s = true
    /\ exists pre k oi pi,
         log = (pre ++ [CalledNewInstruction k false; Tagged k oi pi])%list.
Proof.
  destruct (translateBatch (C := Sample.collaborators) 0 16 0%N 0x1000 8
              Sample.stopsInside Sample.emptyEnv) as [[s log]| |] eqn:Hrun;
    [|vm_compute in Hrun; discriminate..].
  assert (Hs : StopTranslation s = true)
    by (vm_compute in Hrun; injection Hrun as <- _; reflexivity).
  exists s, log. split; [reflexivity|]. split; [exact Hs|].
  destruct (stop_ends_the_batch _ _ _ _ _ _ _ _ _ Hrun Hs)
    as [Hfirst|(pre & k & Inst & oi & pi & Hlog & _)].
  - vm_compute in Hrun. injection Hrun as _ <-. discriminate.
  - exists pre, k, oi, pi. exact Hlog.
Defined.

Lemma stop_at_first_pseudo_op_witness :
  exists MD e1,
    0 < 16
    /\ newInstruction (Collaborators := Sample.collaborators)
         (Sample.insn_start (-1)) true
         (batchStart (H := Sample.collaborators) 0%N Sample.stopsAtFirst
            Sample.emptyEnv) = ((true, MD), e1)
    /\ translateBatch (C := Sample.collaborators) 0 16 0%N 0x1000 8
         Sample.stopsAtFirst Sample.emptyEnv
       = Done (mkLoopState true MD e1, [CalledNewInstruction 0 true]).
Proof.
  eexists. eexists. split; [lia|]. split; [vm_compute; reflexivity|].
  apply (stop_at_first_pseudo_op (C := Sample.collaborators) 0 16 0%N 0x1000 8
           (Sample.insn_start (-1)) [Sample.op 0] Sample.emptyEnv);
    [lia|vm_compute; reflexivity].
Defined.

Lemma pseudo_op_nodes_are_distinct_witness :
  allocatorNeverRewinds Sample.collaborators
  /\ exists s log,
       translateBatch (C := Sample.collaborators) 0 16 0%N 0x1000 8
         Sample.twoOps Sample.emptyEnv = Done (s, log)
       /\ forall oi1 pi1 oi2 pi2,
            In (Tagged 1 oi1 pi1) log -> In (Tagged 2 oi2 pi2) log -> pi1 <> pi2.
Proof.
  split; [repeat split; intros; simpl; rewrite ?Insert_nextNode; lia|].
  destruct (translateBatch (C := Sample.collaborators) 0 16 0%N 0x1000 8
              Sample.twoOps Sample.emptyEnv) as [[s log]| |] eqn:Hrun;
    [|vm_compute in Hrun; discriminate..].
  exists s, log. split; [reflexivity|]. intros oi1 pi1 oi2 pi2 H1 H2.
  refine (proj2 (pseudo_op_nodes_are_distinct _ _ _ _ _ _ _ _ _ _ Hrun
                   1%nat oi1 pi1 2%nat oi2 pi2 H1 H2 _)); [|lia].
  repeat split; intros; simpl; rewrite ?Insert_nextNode; lia.
Defined.

Lemma fallthrough_branch_is_stamped_witness :
  exists (s : LoopState unit) e2 insts,
    opc Sample.call = PTC_INSTRUCTION_op_call
    /\ S 2 = length Sample.endsOnCall
    /\ getBlockAt (Collaborators := Sample.collaborators) 0x1008
         (translateCall (Collaborators := Sample.collaborators) Sample.call
            (withBlocksVector [GetInsertBlock (env s)] (env s)))
       = (0x1008%N, e2)
    /\ InsertPt e2 = None /\ GetInsertBlock e2 ∈ Blocks e2
    /\ instsOf (env (fst (loopBody (C := Sample.collaborators)
                             Sample.endsOnCall 0x1008 2 Sample.call s)))
               (GetInsertBlock e2)
       = (insts ++ [stamp (MDOriginalInstr s)
                      (nodeOf (C := Sample.collaborators)
                         Sample.endsOnCall 0x1008 2 Sample.call s)
                      (newInst (Br 0x1008%N))])%list.
Proof.
  exists (mkLoopState false None Sample.emptyEnv). eexists. eexists.
  split; [reflexivity|]. split; [reflexivity|]. split; [reflexivity|].
  split; [reflexivity|]. split; [by apply (bool_decide_unpack _); vm_compute|].
  apply (fallthrough_branch_is_stamped (C := Sample.collaborators)
           Sample.endsOnCall 0x1008 2 Sample.call
           (mkLoopState false None Sample.emptyEnv) 0x1008%N);
    [reflexivity|reflexivity|reflexivity|reflexivity
    |by apply (bool_decide_unpack _); vm_compute].
Defined.

End TranslateMore.

(** ** The loop over the jump targets *)

Module OuterFacts.
Import Translate Outer TranslateFacts.

Section Loop.
Context {X : Type} {C : Collaborators X} {D : Driver X}.

Lemma translateBatch_Done_in_buffer CodePointer CodeEnd Entry VirtualAddress
    ConsumedSize InstructionList (e : Env X) r :
  translateBatch CodePointer CodeEnd Entry VirtualAddress ConsumedSize
    InstructionList e = Done r ->
  CodePointer < CodeEnd.
Proof.
  unfold translateBatch. intros H. apply bind_Done_inv in H as ([] & Ha & _).
  unfold assert in Ha. destruct (CodePointer <? CodeEnd) eqn:Hlt; [|discriminate].
  by apply Z.ltb_lt.
Qed.

Lemma translations_in_buffer fuel LoadAddress CodeData CodeSize :
  forall VirtualAddress CodePointer Entry (e e' : Env X) batches,
  translations fuel LoadAddress CodeData CodeSize VirtualAddress CodePointer
    Entry e = Some (Done (e', batches)) ->
  match batches with
  | [] => Entry = None
  | (VA, _) :: rest =>
    VA = VirtualAddress /\ CodePointer < CodeData + CodeSize
    /\ Forall (fun b => wrap64 (wrap64 (fst b) - wrap64 LoadAddress) < CodeSize)
              rest
  end.
Proof.
  induction fuel as [|fuel IH];
    intros VirtualAddress CodePointer Entry e e' batches Hrun.
  - destruct Entry; [discriminate|]. simpl in Hrun. by injection Hrun as <- <-.
  - destruct Entry as [EntryBlock|];
      [|simpl in Hrun; by injection Hrun as <- <-].
    simpl in Hrun. destruct (ptc_translate VirtualAddress) as [ConsumedSize IL].
    destruct (translateBatch _ _ _ _ _ _ _) as [[s log]| |] eqn:Hbatch;
      [|discriminate..].
    apply translateBatch_Done_in_buffer in Hbatch.
    destruct (peekJumpTarget (runPasses (env s))) as [[NewPC Entry'] e1].
    destruct (translations fuel _ _ _ _ _ _ _) as [[[e2 rest]| |]|] eqn:Hrest;
      try discriminate.
    injection Hrun as <- <-. apply IH in Hrest.
    split; [reflexivity|]. split; [done|].
    destruct rest as [|[VA log'] rest]; [constructor|].
    destruct Hrest as (-> & Hlt & Hall). constructor; [simpl; lia|done].
Qed.


(** X17: an empty buffer is never decoded.  With [Code.size()] zero the
    first turn of the loop stops on [assert(CodeEnd > CodePointer)],
    whatever the collaborators are. *)
Theorem empty_buffer_aborts fuel LoadAddress CodeData VirtualAddress Entry
    (e : Env X) :
  translateRegion (S fuel) LoadAddress CodeData 0 VirtualAddress Entry e
    = Some (AssertionFailed "CodeEnd > CodePointer").
Proof.
  unfold translateRegion. simpl.
  destruct (ptc_translate VirtualAddress) as [ConsumedSize IL].
  unfold translateBatch. rewrite Z.add_0_r, Z.ltb_irrefl. reflexivity.
Qed.

End Loop.


End OuterFacts.
